(** * layer4/listener.go: the listener wrapper of caddy-l4

    A shallow embedding of [src/layer4/listener.go].  The sequential
    functions ([pipeConnection], [ConnectionState],
    [setKeepAliveWorkarround], [Accept]) are Rocq functions; the goroutines
    ([loop], the anonymous drain watcher it spawns, [handle], and the
    consumer calling [Accept]) are the threads of an interleaving
    transition system over one shared state, one program point per
    blocking or shared-state operation of the source. *)

From stdpp Require Import base gmap strings list.
From Stdlib Require Import ZArith Lia.

Open Scope Z_scope.

(** ** Errors

    A Go [error] is an interface value: [nil] or a reference to an error
    object.  Comparing two errors with [==] compares the references, so an
    error object is modelled with its address; the message plays no role in
    the comparison.  [err_net] tells whether the dynamic type implements
    [net.Error], and what its [Temporary()] method answers. *)

Record errorValue := {
  err_addr : nat;
  err_text : string;
  err_net  : option bool
}.

Abbreviation error := (option errorValue).

(** [var errHijacked = errors.New("hijacked connection")] (line 123); the
    object allocated at package initialisation has address 0. *)
Definition errHijacked : errorValue :=
  {| err_addr := 0; err_text := "hijacked connection"; err_net := None |}.

(** [a == b] on error interfaces. *)
Definition same_error (a b : error) : bool :=
  match a, b with
  | None, None => true
  | Some x, Some y => Nat.eqb (err_addr x) (err_addr y)
  | _, _ => false
  end.

(** [err == errHijacked] *)
Definition is_hijacked (e : error) : bool := same_error e (Some errHijacked).

(** [nerr, ok := err.(net.Error); ok && nerr.Temporary()] (line 92) *)
Definition is_temporary (e : error) : bool :=
  match e with
  | Some x => match err_net x with Some t => t | None => false end
  | None => false
  end.

(** ** Connections *)

(** The dynamic type of a [net.Conn] handed out by the raw listener:
    [*net.TCPConn], some other type with the two methods of the
    [tcpConnection] interface (lines 83-86), or any other connection. *)
Inductive ConnKind := KTCPConn | KKeepAliveOther | KPlain.

(** What the operating system answers for the socket of a connection:
    the error of [SyscallConn()], of [rawConn.Control] and of
    [syscall.WSAIoctl]. *)
Record Socket := {
  syscallConn_err : error;
  control_err     : error;
  wsaioctl_err    : error
}.

(** A connection as the raw listener returns it.  [conn_remote] is the
    text of its [RemoteAddr()], taken to be non-nil as it is for the
    connections a listening socket accepts: line 149 calls
    [cx.RemoteAddr().String()], and connections on which that call would
    panic are left out of the model. *)
Record NetConn := {
  conn_id     : nat;
  conn_kind   : ConnKind;
  conn_remote : string;
  conn_socket : Socket
}.

(** [conn.(tcpConnection)] succeeds (line 100) *)
Definition implements_tcpConnection (c : NetConn) : bool :=
  match conn_kind c with
  | KTCPConn | KKeepAliveOther => true
  | KPlain => false
  end.

(** A snapshot of [tls.ConnectionState] (the fields a consumer of the
    carrier reads). *)
Record TLSState := {
  Version            : Z;
  HandshakeComplete  : bool;
  CipherSuite        : Z;
  NegotiatedProtocol : string;
  ServerName         : string
}.

(** [*tls.ConnectionState]: nil or a reference to a snapshot. *)
Abbreviation StatePtr := (option TLSState).

(** An [interface{}] value held by the variable store. *)
Inductive Value :=
| VConnectionStates (states : list StatePtr)   (* []*tls.ConnectionState *)
| VString (s : string)
| VInt (z : Z)
| VPointer (type_name : string) (is_nil : bool).

(** [*Connection] (declared in connection.go): the wrapped connection, its
    buffer, the variable store of its context, and the byte counters.
    [buf] is what the buffer object holds; which object it is is recorded
    by the goroutine that wrapped the connection ([hbuf] below). *)
Record Connection := {
  Conn         : NetConn;
  buf          : list Z;
  vars         : gmap string Value;
  bytesRead    : Z;
  bytesWritten : Z
}.

(** Modelled from the spec: [WrapConnection] of connection.go, which builds
    the connection context around the raw connection and the buffer, with
    an empty variable store and zero counters. *)
Definition WrapConnection (conn : NetConn) (b : list Z) : Connection :=
  {| Conn := conn; buf := b; vars := ∅; bytesRead := 0; bytesWritten := 0 |}.

(** Modelled from the spec: [Connection.GetVar] of connection.go, a lookup
    in the variable store by name; [None] is the nil interface. *)
Definition GetVar (conn : Connection) (key : string) : option Value :=
  vars conn !! key.

(** [tlsConnection] (lines 183-186) *)
Record tlsConnection := {
  tls_Conn  : Connection;
  connState : StatePtr
}.

(** The [net.Conn] values that travel on [connChan]. *)
Inductive ChanConn :=
| PlainConn (conn : Connection)
| TLSConn (tc : tlsConnection).

Inductive PanicReason :=
| TypeAssertion
| IndexOutOfRange
| NilDereference
| SendOnClosedChannel
| CloseOfClosedChannel
| NegativeWaitGroup
| HandlerPanic.

(** [tlsConnection.ConnectionState] (lines 188-190): [*tc.connState];
    dereferencing nil panics. *)
Definition ConnectionState (tc : tlsConnection) : TLSState + PanicReason :=
  match connState tc with
  | Some st => inl st
  | None => inr NilDereference
  end.

(** ** pipeConnection (lines 164-180)

    The function evaluates the value to send, sends it on [l.connChan] and
    returns.  [PipeSend v ret] is "send [v], then return [ret]"; the send
    itself is a step of the calling goroutine in the transition system
    below. *)
Inductive PipeResult :=
| PipePanic (r : PanicReason)
| PipeSend (v : ChanConn) (ret : error).

Definition pipeConnection (conn : Connection) : PipeResult :=
  let asserted : list StatePtr + PanicReason :=
    match GetVar conn "tls_connection_states" with
    | Some (VConnectionStates states) => inl states
    | Some _ => inr TypeAssertion
    | None => inl []
    end in
  match asserted with
  | inr r => PipePanic r
  | inl connectionStates =>
      if (0 <? length connectionStates)%nat then
        match connectionStates !! (length connectionStates - 1)%nat with
        | Some p =>
            PipeSend (TLSConn {| tls_Conn := conn; connState := p |})
                     (Some errHijacked)
        | None => PipePanic IndexOutOfRange
        end
      else PipeSend (PlainConn conn) (Some errHijacked)
  end.

(** ** setKeepAliveWorkarround (lines 192-221) *)

(** [syscall.TCPKeepalive]: three uint32 fields. *)
Record TCPKeepalive := {
  OnOff    : Z;
  Time     : Z;
  Interval : Z
}.

Definition keepaliveParams : TCPKeepalive :=
  {| OnOff := 1; Time := 120000; Interval := 15000 |}.

(** [syscall.SIO_KEEPALIVE_VALS = IOC_IN | IOC_VENDOR | 4] *)
Definition SIO_KEEPALIVE_VALS : Z :=
  Z.lor (Z.lor 0x80000000 0x18000000) 4.

(** What the function does to the outside world.  The two methods of the
    [tcpConnection] interface are possible calls on the connection as
    well. *)
Inductive SysCall :=
| CallSyscallConn (c : nat)
| CallControl (c : nat)
| CallWSAIoctl (c : nat) (code : Z) (params : TCPKeepalive)
| CallPrintln (msg : string) (e : errorValue)
| CallSetKeepAlive (c : nat) (on : bool)
| CallSetKeepAlivePeriod (c : nat) (millis : Z).

Inductive KeepAliveResult :=
| KAPanic (r : PanicReason)
| KAReturn (e : error).

(** [rawConn.Control] runs its callback only when it can pin the file
    descriptor; otherwise it returns its error without running it. *)
Definition setKeepAliveWorkarround (conn : NetConn)
  : list SysCall * KeepAliveResult :=
  match conn_kind conn with
  | KTCPConn =>
      let c := conn_id conn in
      match syscallConn_err (conn_socket conn) with
      | Some e => ([CallSyscallConn c], KAReturn (Some e))
      | None =>
          match control_err (conn_socket conn) with
          | Some e => ([CallSyscallConn c; CallControl c], KAReturn (Some e))
          | None =>
              let ioctl := CallWSAIoctl c SIO_KEEPALIVE_VALS keepaliveParams in
              match wsaioctl_err (conn_socket conn) with
              | Some e =>
                  ([CallSyscallConn c; CallControl c; ioctl;
                    CallPrintln "WSAIoctl error:" e], KAReturn None)
              | None =>
                  ([CallSyscallConn c; CallControl c; ioctl], KAReturn None)
              end
          end
      end
  | _ => ([], KAPanic TypeAssertion)
  end.

(** ** The hand-off channel

    A buffered channel of capacity [chan_cap] (line 58).  Each entry
    carries, next to the value, the index of the handler goroutine that
    sent it; the index is a label used to state the properties, the code
    never reads it. *)
Abbreviation Item := (nat * ChanConn)%type.

Record Chan := {
  chan_buf    : list Item;
  chan_cap    : nat;
  chan_closed : bool
}.

Inductive Recv :=
| RecvValue (x : Item) (rest : Chan)
| RecvClosed
| RecvBlocked.

(** [v, ok := <-ch]: a closed channel still hands out what it holds. *)
Definition chan_recv (ch : Chan) : Recv :=
  match chan_buf ch with
  | x :: rest =>
      RecvValue x {| chan_buf := rest; chan_cap := chan_cap ch;
                     chan_closed := chan_closed ch |}
  | [] => if chan_closed ch then RecvClosed else RecvBlocked
  end.

Inductive Send :=
| SendDone (ch : Chan)
| SendPanic
| SendBlocked.

(** [ch <- x] *)
Definition chan_send (ch : Chan) (x : Item) : Send :=
  if chan_closed ch then SendPanic
  else if (length (chan_buf ch) <? chan_cap ch)%nat then
    SendDone {| chan_buf := chan_buf ch ++ [x]; chan_cap := chan_cap ch;
                chan_closed := false |}
  else SendBlocked.

(** ** Accept (lines 156-162)

    [None] is a call that blocks; otherwise the channel after the call and
    the pair the call returns. *)
Definition Accept (connChan : Chan) (err : error)
  : option (Chan * (option Item * error)) :=
  match chan_recv connChan with
  | RecvValue conn rest => Some (rest, (Some conn, None))
  | RecvClosed => Some (connChan, (None, err))
  | RecvBlocked => None
  end.

(** ** The buffer pool

    Modelled from the spec: [bufPool] of connection.go, a process-wide
    [sync.Pool] of byte buffers whose [New] allocates an empty buffer.
    A [*bytes.Buffer] is an object with an address and the bytes it holds
    now; the pool hands out and takes back objects, not copies.
    [pool_out] counts the buffers checked out and not yet put back,
    [pool_next] is the address of the next buffer [New] allocates. *)
Record Buffer := {
  buf_addr  : nat;
  buf_bytes : list Z
}.

Record Pool := {
  pool_free : list Buffer;
  pool_out  : Z;
  pool_next : nat
}.

(** [bufPool.Get()]: a buffer put back earlier, with
    whatever it held, or a new one. *)
Definition pool_get (p : Pool) : Buffer * Pool :=
  match pool_free p with
  | b :: rest =>
      (b, {| pool_free := rest; pool_out := pool_out p + 1;
             pool_next := pool_next p |})
  | [] =>
      ({| buf_addr := pool_next p; buf_bytes := [] |},
       {| pool_free := []; pool_out := pool_out p + 1;
          pool_next := S (pool_next p) |})
  end.

(** [bufPool.Put(buf)] *)
Definition pool_put (b : Buffer) (p : Pool) : Pool :=
  {| pool_free := b :: pool_free p; pool_out := pool_out p - 1;
     pool_next := pool_next p |}.

(** [buf.Reset()]: the same object, emptied. *)
Definition Reset (b : Buffer) : Buffer :=
  {| buf_addr := buf_addr b; buf_bytes := [] |}.

(** ** The handler chain

    [l.compiledRoute.Handle(cx)] is code outside this file.  What it can
    do to the listener is described by a [ChainBehaviour]: it returns an
    error of its choice, or it fills the variable store and returns what
    [pipeConnection] returns (as [listenerHandler] does), or it panics;
    meanwhile it moves bytes, which shows in the counters and in what is
    left in the buffer.  A chain may also call [pipeConnection], drop what
    it returns and go on ([PipesThen]): so it can pipe and then return nil
    or an error of its own, pipe several times, or pipe and panic.  Every
    call of [pipeConnection] is made by the goroutine running [Handle],
    before [Handle] returns. *)
Inductive ChainOutcome :=
| Returns (e : error)
| Pipes (vs : gmap string Value)
| Panics
| PipesThen (vs : gmap string Value) (next : ChainOutcome).

Record ChainBehaviour := {
  chain_outcome  : ChainOutcome;
  chain_read     : Z;
  chain_written  : Z;
  chain_leftover : list Z
}.

Abbreviation Handler := (Connection → ChainBehaviour).

(** ** Log records *)
Inductive Level := ErrorLevel | WarnLevel | DebugLevel.

Record LogRecord := {
  log_level : Level;
  log_msg   : string;
  log_err   : error;
  log_stats : option (string * Z * Z)
}.

Definition log_error (lv : Level) (msg : string) (e : error) : LogRecord :=
  {| log_level := lv; log_msg := msg; log_err := e; log_stats := None |}.

(** ** Program points *)

(** [loop] (lines 89-120) *)
Inductive LoopPC :=
| LAccept                    (* line 91, before l.Listener.Accept() *)
| LAdd (conn : NetConn)      (* line 108, before l.wg.Add(1) *)
| LSpawn (conn : NetConn)    (* line 109, before go l.handle(conn) *)
| LBreak                     (* line 113, before spawning the drain watcher *)
| LDrain                     (* line 117, ranging over l.connChan *)
| LDone.                     (* line 120, returned *)

(** The goroutine of lines 113-116 *)
Inductive WatcherPC :=
| WNone                      (* not spawned *)
| WWait                      (* line 114, in l.wg.Wait() *)
| WClose                     (* line 115, before close(l.connChan) *)
| WDone.

(** [handle] (lines 125-154) *)
Inductive HandlePC :=
| HStart                     (* line 134, before bufPool.Get() *)
| HHandle                    (* line 142, before l.compiledRoute.Handle(cx) *)
| HPipe (conn : Connection)  (* line 164, inside pipeConnection(conn) *)
| HPipeThen (conn : Connection) (next : ChainOutcome)
                             (* line 164, in a call the chain goes on after *)
| HAfter                     (* line 143, Handle has returned *)
| HPut                       (* line 136, deferred bufPool.Put(buf) *)
| HWgDone                    (* line 128, deferred l.wg.Done() *)
| HClose                     (* line 129, deferred closing decision *)
| HExit.

(** One goroutine running [handle(conn)]: its argument, the address of
    its local [buf] (line 134), [cx], whose buffer holds the bytes of that
    object, its program point, the local variable [err], and the panic it
    is unwinding from, if any. *)
Record HandleState := {
  hconn  : NetConn;
  hbuf   : nat;
  hcx    : Connection;
  hpc    : HandlePC;
  herr   : error;
  hpanic : option PanicReason
}.

(** ** The shared state

    The fields of [listener] (lines 70-81) are [l_connChan], [l_err] and
    [l_wg]; [raw] is what the successive calls of the raw listener's
    [Accept] will return.  The last fields record what has happened. *)
Record State := {
  raw             : list (NetConn * error);
  l_connChan      : Chan;
  l_err           : error;
  l_wg            : Z;
  loop_pc         : LoopPC;
  watcher_pc      : WatcherPC;
  handlers        : list HandleState;
  bufPool         : Pool;
  log             : list LogRecord;
  syscalls        : list SysCall;
  closedByHandler : list nat;
  delivered       : list Item;
  terminal        : list error;
  drained         : list Item;
  panicked        : option PanicReason
}.

Definition set_raw (x : list (NetConn * error)) (s : State) : State :=
  {| raw := x; l_connChan := l_connChan s; l_err := l_err s; l_wg := l_wg s;
     loop_pc := loop_pc s; watcher_pc := watcher_pc s;
     handlers := handlers s; bufPool := bufPool s; log := log s;
     syscalls := syscalls s; closedByHandler := closedByHandler s;
     delivered := delivered s; terminal := terminal s; drained := drained s;
     panicked := panicked s |}.

Definition set_connChan (x : Chan) (s : State) : State :=
  {| raw := raw s; l_connChan := x; l_err := l_err s; l_wg := l_wg s;
     loop_pc := loop_pc s; watcher_pc := watcher_pc s;
     handlers := handlers s; bufPool := bufPool s; log := log s;
     syscalls := syscalls s; closedByHandler := closedByHandler s;
     delivered := delivered s; terminal := terminal s; drained := drained s;
     panicked := panicked s |}.

Definition set_err (x : error) (s : State) : State :=
  {| raw := raw s; l_connChan := l_connChan s; l_err := x; l_wg := l_wg s;
     loop_pc := loop_pc s; watcher_pc := watcher_pc s;
     handlers := handlers s; bufPool := bufPool s; log := log s;
     syscalls := syscalls s; closedByHandler := closedByHandler s;
     delivered := delivered s; terminal := terminal s; drained := drained s;
     panicked := panicked s |}.

Definition set_wg (x : Z) (s : State) : State :=
  {| raw := raw s; l_connChan := l_connChan s; l_err := l_err s; l_wg := x;
     loop_pc := loop_pc s; watcher_pc := watcher_pc s;
     handlers := handlers s; bufPool := bufPool s; log := log s;
     syscalls := syscalls s; closedByHandler := closedByHandler s;
     delivered := delivered s; terminal := terminal s; drained := drained s;
     panicked := panicked s |}.

Definition set_loop_pc (x : LoopPC) (s : State) : State :=
  {| raw := raw s; l_connChan := l_connChan s; l_err := l_err s;
     l_wg := l_wg s; loop_pc := x; watcher_pc := watcher_pc s;
     handlers := handlers s; bufPool := bufPool s; log := log s;
     syscalls := syscalls s; closedByHandler := closedByHandler s;
     delivered := delivered s; terminal := terminal s; drained := drained s;
     panicked := panicked s |}.

Definition set_watcher_pc (x : WatcherPC) (s : State) : State :=
  {| raw := raw s; l_connChan := l_connChan s; l_err := l_err s;
     l_wg := l_wg s; loop_pc := loop_pc s; watcher_pc := x;
     handlers := handlers s; bufPool := bufPool s; log := log s;
     syscalls := syscalls s; closedByHandler := closedByHandler s;
     delivered := delivered s; terminal := terminal s; drained := drained s;
     panicked := panicked s |}.

Definition set_handlers (x : list HandleState) (s : State) : State :=
  {| raw := raw s; l_connChan := l_connChan s; l_err := l_err s;
     l_wg := l_wg s; loop_pc := loop_pc s; watcher_pc := watcher_pc s;
     handlers := x; bufPool := bufPool s; log := log s;
     syscalls := syscalls s; closedByHandler := closedByHandler s;
     delivered := delivered s; terminal := terminal s; drained := drained s;
     panicked := panicked s |}.

Definition set_bufPool (x : Pool) (s : State) : State :=
  {| raw := raw s; l_connChan := l_connChan s; l_err := l_err s;
     l_wg := l_wg s; loop_pc := loop_pc s; watcher_pc := watcher_pc s;
     handlers := handlers s; bufPool := x; log := log s;
     syscalls := syscalls s; closedByHandler := closedByHandler s;
     delivered := delivered s; terminal := terminal s; drained := drained s;
     panicked := panicked s |}.

Definition add_log (x : list LogRecord) (s : State) : State :=
  {| raw := raw s; l_connChan := l_connChan s; l_err := l_err s;
     l_wg := l_wg s; loop_pc := loop_pc s; watcher_pc := watcher_pc s;
     handlers := handlers s; bufPool := bufPool s; log := log s ++ x;
     syscalls := syscalls s; closedByHandler := closedByHandler s;
     delivered := delivered s; terminal := terminal s; drained := drained s;
     panicked := panicked s |}.

Definition add_syscalls (x : list SysCall) (s : State) : State :=
  {| raw := raw s; l_connChan := l_connChan s; l_err := l_err s;
     l_wg := l_wg s; loop_pc := loop_pc s; watcher_pc := watcher_pc s;
     handlers := handlers s; bufPool := bufPool s; log := log s;
     syscalls := syscalls s ++ x; closedByHandler := closedByHandler s;
     delivered := delivered s; terminal := terminal s; drained := drained s;
     panicked := panicked s |}.

Definition add_closedByHandler (x : list nat) (s : State) : State :=
  {| raw := raw s; l_connChan := l_connChan s; l_err := l_err s;
     l_wg := l_wg s; loop_pc := loop_pc s; watcher_pc := watcher_pc s;
     handlers := handlers s; bufPool := bufPool s; log := log s;
     syscalls := syscalls s; closedByHandler := closedByHandler s ++ x;
     delivered := delivered s; terminal := terminal s; drained := drained s;
     panicked := panicked s |}.

Definition add_delivered (x : list Item) (s : State) : State :=
  {| raw := raw s; l_connChan := l_connChan s; l_err := l_err s;
     l_wg := l_wg s; loop_pc := loop_pc s; watcher_pc := watcher_pc s;
     handlers := handlers s; bufPool := bufPool s; log := log s;
     syscalls := syscalls s; closedByHandler := closedByHandler s;
     delivered := delivered s ++ x; terminal := terminal s;
     drained := drained s; panicked := panicked s |}.

Definition add_terminal (x : list error) (s : State) : State :=
  {| raw := raw s; l_connChan := l_connChan s; l_err := l_err s;
     l_wg := l_wg s; loop_pc := loop_pc s; watcher_pc := watcher_pc s;
     handlers := handlers s; bufPool := bufPool s; log := log s;
     syscalls := syscalls s; closedByHandler := closedByHandler s;
     delivered := delivered s; terminal := terminal s ++ x;
     drained := drained s; panicked := panicked s |}.

Definition add_drained (x : list Item) (s : State) : State :=
  {| raw := raw s; l_connChan := l_connChan s; l_err := l_err s;
     l_wg := l_wg s; loop_pc := loop_pc s; watcher_pc := watcher_pc s;
     handlers := handlers s; bufPool := bufPool s; log := log s;
     syscalls := syscalls s; closedByHandler := closedByHandler s;
     delivered := delivered s; terminal := terminal s;
     drained := drained s ++ x; panicked := panicked s |}.

Definition set_panicked (x : option PanicReason) (s : State) : State :=
  {| raw := raw s; l_connChan := l_connChan s; l_err := l_err s;
     l_wg := l_wg s; loop_pc := loop_pc s; watcher_pc := watcher_pc s;
     handlers := handlers s; bufPool := bufPool s; log := log s;
     syscalls := syscalls s; closedByHandler := closedByHandler s;
     delivered := delivered s; terminal := terminal s; drained := drained s;
     panicked := x |}.

(** ** loop (lines 89-120) *)

(** lines 100-105: the keepalive set-up of an accepted connection, and the
    program point that follows it. *)
Definition loop_keepalive (conn : NetConn) (s : State) : State :=
  if implements_tcpConnection conn then
    match setKeepAliveWorkarround conn with
    | (calls, KAPanic r) => set_panicked (Some r) (add_syscalls calls s)
    | (calls, KAReturn (Some e)) =>
        set_loop_pc (LAdd conn)
          (add_log [log_error WarnLevel
                      "unable to set keepalive for new connection:" (Some e)]
             (add_syscalls calls s))
    | (calls, KAReturn None) => set_loop_pc (LAdd conn) (add_syscalls calls s)
    end
  else set_loop_pc (LAdd conn) s.

Definition spawn_handle (conn : NetConn) : HandleState :=
  {| hconn := conn; hbuf := 0; hcx := WrapConnection conn []; hpc := HStart;
     herr := None; hpanic := None |}.

(** One step of the accept-loop goroutine; [None] when it is blocked or has
    returned. *)
Definition loop (s : State) : option State :=
  match loop_pc s with
  | LAccept =>
      match raw s with
      | [] => None
      | (conn, err) :: rest =>
          if is_temporary err then
            Some (add_log [log_error ErrorLevel
                             "temporary error accepting connection" err]
                    (set_raw rest s))
          else
            match err with
            | Some _ => Some (set_loop_pc LBreak (set_err err (set_raw rest s)))
            | None => Some (loop_keepalive conn (set_raw rest s))
            end
      end
  | LAdd conn => Some (set_loop_pc (LSpawn conn) (set_wg (l_wg s + 1) s))
  | LSpawn conn =>
      Some (set_loop_pc LAccept
              (set_handlers (handlers s ++ [spawn_handle conn]) s))
  | LBreak => Some (set_loop_pc LDrain (set_watcher_pc WWait s))
  | LDrain =>
      match chan_recv (l_connChan s) with
      | RecvValue conn rest => Some (add_drained [conn] (set_connChan rest s))
      | RecvClosed => Some (set_loop_pc LDone s)
      | RecvBlocked => None
      end
  | LDone => None
  end.

(** ** The drain watcher (lines 113-116) *)
Definition drainWatcher (s : State) : option State :=
  match watcher_pc s with
  | WNone => None
  | WWait => if l_wg s =? 0 then Some (set_watcher_pc WClose s) else None
  | WClose =>
      if chan_closed (l_connChan s) then
        Some (set_panicked (Some CloseOfClosedChannel) s)
      else
        Some (set_watcher_pc WDone
                (set_connChan {| chan_buf := chan_buf (l_connChan s);
                                 chan_cap := chan_cap (l_connChan s);
                                 chan_closed := true |} s))
  | WDone => None
  end.

(** ** handle (lines 125-154) *)

(** line 144: [err != nil && err != errHijacked] *)
Definition logs_error (err : error) : bool :=
  match err with
  | Some _ => negb (is_hijacked err)
  | None => false
  end.

(** line 129: [err != errHijacked] *)
Definition closes_conn (err : error) : bool := negb (is_hijacked err).

(** lines 144-153: what [handle] logs once [Handle] has returned, for a
    connection with a remote address. *)
Definition handle_log (cx : Connection) (err : error) : list LogRecord :=
  (if logs_error err
   then [log_error ErrorLevel "handling connection" err] else [])
  ++ [ {| log_level := DebugLevel; log_msg := "connection stats";
          log_err := None;
          log_stats := Some (conn_remote (Conn cx), bytesRead cx,
                             bytesWritten cx) |} ].

(** [cx] once the chain has worked on it. *)
Definition after_chain (cx : Connection) (b : ChainBehaviour) : Connection :=
  {| Conn := Conn cx; buf := chain_leftover b; vars := vars cx;
     bytesRead := chain_read b; bytesWritten := chain_written b |}.

Definition with_vars (vs : gmap string Value) (cx : Connection) : Connection :=
  {| Conn := Conn cx; buf := buf cx; vars := vs;
     bytesRead := bytesRead cx; bytesWritten := bytesWritten cx |}.

Definition at_pc (pc : HandlePC) (h : HandleState) : HandleState :=
  {| hconn := hconn h; hbuf := hbuf h; hcx := hcx h; hpc := pc;
     herr := herr h; hpanic := hpanic h |}.

(** A panic starts the deferred calls, with [err] as it is. *)
Definition panicking (r : PanicReason) (h : HandleState) : HandleState :=
  {| hconn := hconn h; hbuf := hbuf h; hcx := hcx h; hpc := HPut;
     herr := herr h; hpanic := Some r |}.

(** The chain goes on after a call of [pipeConnection] whose result it
    dropped. *)
Definition chain_goes_on (next : ChainOutcome) (h : HandleState)
  : HandleState :=
  match next with
  | Returns e =>
      {| hconn := hconn h; hbuf := hbuf h; hcx := hcx h; hpc := HAfter;
         herr := e; hpanic := hpanic h |}
  | Pipes vs =>
      {| hconn := hconn h; hbuf := hbuf h; hcx := with_vars vs (hcx h);
         hpc := HPipe (with_vars vs (hcx h));
         herr := herr h; hpanic := hpanic h |}
  | Panics => panicking HandlerPanic h
  | PipesThen vs next' =>
      {| hconn := hconn h; hbuf := hbuf h; hcx := with_vars vs (hcx h);
         hpc := HPipeThen (with_vars vs (hcx h)) next';
         herr := herr h; hpanic := hpanic h |}
  end.

Definition set_handler (i : nat) (h : HandleState) (s : State) : State :=
  set_handlers (<[i := h]> (handlers s)) s.

(** One step of the [i]-th handler goroutine; [None] when it does not
    exist, is blocked on the channel or has exited. *)
Definition handle (compiledRoute : Handler) (i : nat) (s : State)
  : option State :=
  match handlers s !! i with
  | None => None
  | Some h =>
      match hpc h with
      | HStart =>
          let '(b, pool) := pool_get (bufPool s) in
          Some (set_bufPool pool
                  (set_handler i
                     {| hconn := hconn h; hbuf := buf_addr b;
                        hcx := WrapConnection (hconn h)
                                 (buf_bytes (Reset b));
                        hpc := HHandle; herr := herr h; hpanic := hpanic h |}
                     s))
      | HHandle =>
          let b := compiledRoute (hcx h) in
          let cx := after_chain (hcx h) b in
          match chain_outcome b with
          | Returns e =>
              Some (set_handler i
                      {| hconn := hconn h; hbuf := hbuf h; hcx := cx;
                         hpc := HAfter; herr := e; hpanic := hpanic h |} s)
          | Pipes vs =>
              Some (set_handler i
                      {| hconn := hconn h; hbuf := hbuf h;
                         hcx := with_vars vs cx;
                         hpc := HPipe (with_vars vs cx);
                         herr := herr h; hpanic := hpanic h |} s)
          | Panics =>
              Some (set_handler i
                      (panicking HandlerPanic
                         {| hconn := hconn h; hbuf := hbuf h; hcx := cx;
                            hpc := HHandle;
                            herr := herr h; hpanic := hpanic h |}) s)
          | PipesThen vs next =>
              Some (set_handler i
                      {| hconn := hconn h; hbuf := hbuf h;
                         hcx := with_vars vs cx;
                         hpc := HPipeThen (with_vars vs cx) next;
                         herr := herr h; hpanic := hpanic h |} s)
          end
      | HPipe conn =>
          match pipeConnection conn with
          | PipePanic r => Some (set_handler i (panicking r h) s)
          | PipeSend v ret =>
              match chan_send (l_connChan s) (i, v) with
              | SendDone ch =>
                  Some (set_connChan ch
                          (set_handler i
                             {| hconn := hconn h; hbuf := hbuf h;
                                hcx := hcx h;
                                hpc := HAfter; herr := ret;
                                hpanic := hpanic h |} s))
              | SendPanic =>
                  Some (set_handler i (panicking SendOnClosedChannel h) s)
              | SendBlocked => None
              end
          end
      | HPipeThen conn next =>
          match pipeConnection conn with
          | PipePanic r => Some (set_handler i (panicking r h) s)
          | PipeSend v ret =>
              match chan_send (l_connChan s) (i, v) with
              | SendDone ch =>
                  Some (set_connChan ch
                          (set_handler i (chain_goes_on next h) s))
              | SendPanic =>
                  Some (set_handler i (panicking SendOnClosedChannel h) s)
              | SendBlocked => None
              end
          end
      | HAfter =>
          Some (add_log (handle_log (hcx h) (herr h))
                  (set_handler i (at_pc HPut h) s))
      | HPut =>
          Some (set_bufPool
                  (pool_put {| buf_addr := hbuf h; buf_bytes := buf (hcx h) |}
                     (bufPool s))
                  (set_handler i (at_pc HWgDone h) s))
      | HWgDone =>
          if l_wg s <=? 0 then
            Some (set_panicked (Some NegativeWaitGroup)
                    (set_handler i (at_pc HExit h) s))
          else
            Some (set_wg (l_wg s - 1) (set_handler i (at_pc HClose h) s))
      | HClose =>
          Some (set_panicked (hpanic h)
                  (add_closedByHandler
                     (if closes_conn (herr h) then [i] else [])
                     (set_handler i (at_pc HExit h) s)))
      | HExit => None
      end
  end.

(** ** The consumer: one call of [Accept] on the wrapper listener *)
Definition consumer_Accept (s : State) : option State :=
  match Accept (l_connChan s) (l_err s) with
  | Some (ch, (Some conn, _)) => Some (add_delivered [conn] (set_connChan ch s))
  | Some (ch, (None, err)) => Some (add_terminal [err] s)
  | None => None
  end.

(** ** The transition system *)
Inductive Action :=
| ALoop
| AWatcher
| AHandle (i : nat)
| AAccept.

(** An unrecovered panic ends the process. *)
Definition step (compiledRoute : Handler) (s : State) (a : Action)
  : option State :=
  match panicked s with
  | Some _ => None
  | None =>
      match a with
      | ALoop => loop s
      | AWatcher => drainWatcher s
      | AHandle i => handle compiledRoute i s
      | AAccept => consumer_Accept s
      end
  end.

(** [WrapListener] (lines 56-68): the state in which [go li.loop()] starts;
    [capacity] is [runtime.GOMAXPROCS(0)].  [pool] is what the buffers of
    the pool hold at that time; they are the objects at addresses 0, 1,
    and so on. *)
Definition WrapListener (l : list (NetConn * error)) (capacity : nat)
    (pool : list (list Z)) : State :=
  {| raw := l;
     l_connChan := {| chan_buf := []; chan_cap := capacity;
                      chan_closed := false |};
     l_err := None; l_wg := 0; loop_pc := LAccept; watcher_pc := WNone;
     handlers := [];
     bufPool := {| pool_free := imap (λ k bytes, {| buf_addr := k;
                                                    buf_bytes := bytes |})
                                  pool;
                   pool_out := 0; pool_next := length pool |};
     log := []; syscalls := []; closedByHandler := []; delivered := [];
     terminal := []; drained := []; panicked := None |}.

(** Running a schedule. *)
Fixpoint run (compiledRoute : Handler) (s : State) (sched : list Action)
  : option State :=
  match sched with
  | [] => Some s
  | a :: rest =>
      match step compiledRoute s a with
      | Some s' => run compiledRoute s' rest
      | None => None
      end
  end.

Inductive reachable (compiledRoute : Handler) (init : State) : State → Prop :=
| reachable_init : reachable compiledRoute init init
| reachable_step s a s' :
    reachable compiledRoute init s →
    step compiledRoute s a = Some s' →
    reachable compiledRoute init s'.

(** ** Measures on the state, used to state the properties *)

(** Handler goroutines that have not yet run their [l.wg.Done()]. *)
Definition in_flight (h : HandleState) : nat :=
  match hpc h with
  | HClose | HExit => 0
  | _ => 1
  end.

(** Handler goroutines between [bufPool.Get()] and [bufPool.Put(buf)]. *)
Definition holds_buffer (h : HandleState) : nat :=
  match hpc h with
  | HHandle | HPipe _ | HPipeThen _ _ | HAfter | HPut => 1
  | _ => 0
  end.

Definition total (w : HandleState → nat) (hs : list HandleState) : nat :=
  foldr (λ h n, w h + n)%nat 0%nat hs.

(** An [l.wg.Add(1)] whose goroutine is not spawned yet. *)
Definition pending (pc : LoopPC) : Z :=
  match pc with
  | LSpawn _ => 1
  | _ => 0
  end.

(** The accept phase is over: the loop has left its [for]. *)
Definition stopped (pc : LoopPC) : bool :=
  match pc with
  | LBreak | LDrain | LDone => true
  | _ => false
  end.

Definition exited (h : HandleState) : bool :=
  match hpc h with
  | HExit => true
  | _ => false
  end.

(** Occurrences of a handler index in a record of events. *)
Fixpoint cnt (i : nat) (l : list nat) : nat :=
  match l with
  | [] => 0
  | j :: rest => ((if Nat.eqb i j then 1 else 0) + cnt i rest)%nat
  end.

Definition tags (l : list Item) : list nat := map fst l.

(** How the chain ends, after the calls of [pipeConnection] whose result
    it dropped. *)
Fixpoint final_outcome (o : ChainOutcome) : ChainOutcome :=
  match o with
  | PipesThen _ next => final_outcome next
  | _ => o
  end.

(** The error the chain hands back to [handle] for the connection [conn]:
    its own, or the one of [pipeConnection]. *)
Definition chain_returned (compiledRoute : Handler) (h : HandleState)
  : Prop :=
  match final_outcome
          (chain_outcome (compiledRoute (WrapConnection (hconn h) []))) with
  | Returns e => herr h = e
  | Pipes _ => herr h = Some errHijacked
  | Panics => False
  | PipesThen _ _ => False
  end.

(** The goroutine has put its connection on the channel (read for a chain
    that calls [pipeConnection] at most once). *)
Definition has_sent (compiledRoute : Handler) (h : HandleState) : bool :=
  match hpc h, hpanic h,
        chain_outcome (compiledRoute (WrapConnection (hconn h) [])) with
  | (HAfter | HPut | HWgDone | HClose | HExit), None, Pipes _ => true
  | _, _, _ => false
  end.

(** The chain returns the hijacked marker only as the result of
    [pipeConnection]. *)
Definition marker_only_from_pipe (compiledRoute : Handler) : Prop :=
  ∀ cx e, chain_outcome (compiledRoute cx) = Returns e →
          is_hijacked e = false.

(** What is known of one handler goroutine at each program point. *)
Definition local_ok (compiledRoute : Handler) (h : HandleState) : Prop :=
  match hpc h with
  | HStart => herr h = None ∧ hpanic h = None
  | HHandle =>
      herr h = None ∧ hpanic h = None ∧
      hcx h = WrapConnection (hconn h) []
  | HPipe _ =>
      herr h = None ∧ hpanic h = None ∧
      ∃ vs, final_outcome
              (chain_outcome (compiledRoute (WrapConnection (hconn h) [])))
            = Pipes vs
  | HPipeThen _ next =>
      herr h = None ∧ hpanic h = None ∧
      final_outcome next
      = final_outcome
          (chain_outcome (compiledRoute (WrapConnection (hconn h) [])))
  | HAfter => hpanic h = None ∧ chain_returned compiledRoute h
  | HPut | HWgDone | HClose | HExit =>
      match hpanic h with
      | None => chain_returned compiledRoute h
      | Some r => herr h = None ∧ r ≠ SendOnClosedChannel
      end
  end.

Record Inv (compiledRoute : Handler) (s : State) : Prop := {
  inv_wg :
    l_wg s = Z.of_nat (total in_flight (handlers s)) + pending (loop_pc s);
  inv_pool :
    pool_out (bufPool s) = Z.of_nat (total holds_buffer (handlers s));
  inv_watcher :
    watcher_pc s ≠ WNone ↔ (loop_pc s = LDrain ∨ loop_pc s = LDone);
  inv_zero :
    watcher_pc s = WClose ∨ watcher_pc s = WDone → l_wg s = 0;
  inv_closed :
    chan_closed (l_connChan s) = true ↔ watcher_pc s = WDone;
  inv_done :
    loop_pc s = LDone →
    chan_buf (l_connChan s) = [] ∧ chan_closed (l_connChan s) = true;
  inv_err :
    if stopped (loop_pc s)
    then ∃ e, l_err s = Some e ∧ is_temporary (Some e) = false
    else l_err s = None;
  inv_panicked :
    panicked s ≠ Some SendOnClosedChannel;
  inv_local :
    ∀ i h, handlers s !! i = Some h → local_ok compiledRoute h;
  inv_closes :
    ∀ i h, handlers s !! i = Some h →
      cnt i (closedByHandler s)
      = if exited h && closes_conn (herr h) then 1%nat else 0%nat;
  inv_fresh :
    ∀ i, (length (handlers s) ≤ i)%nat →
      cnt i (closedByHandler s) = 0%nat ∧
      cnt i (tags (chan_buf (l_connChan s))) = 0%nat ∧
      cnt i (tags (delivered s)) = 0%nat ∧
      cnt i (tags (drained s)) = 0%nat
}.

(** The chain calls [pipeConnection] at most once, and when it does it
    returns what the call returns. *)
Definition pipes_at_most_once (compiledRoute : Handler) : Prop :=
  ∀ cx vs next, chain_outcome (compiledRoute cx) ≠ PipesThen vs next.

(** For such chains: what a goroutine has put on the channel is on the
    channel, delivered or drained, once. *)
Definition sent_inv (compiledRoute : Handler) (s : State) : Prop :=
  ∀ i h, handlers s !! i = Some h →
    (∀ conn next, hpc h ≠ HPipeThen conn next) ∧
    (cnt i (tags (chan_buf (l_connChan s))) + cnt i (tags (delivered s))
     + cnt i (tags (drained s)))%nat
    = if has_sent compiledRoute h then 1%nat else 0%nat.

(** The buffers the goroutines hold between their [Get] and their [Put],
    by address. *)
Definition owned (hs : list HandleState) : list nat :=
  flat_map (λ h, if Nat.eqb (holds_buffer h) 1 then [hbuf h] else []) hs.

(** All the buffers there are: those in the pool and those held. *)
Definition buffers (s : State) : list nat :=
  (buf_addr <$> pool_free (bufPool s)) ++ owned (handlers s).

(** ** Statements about the fate of a connection *)

(** The [i]-th handler goroutine has called [conn.Close()]. *)
Definition closed_by_handler (s : State) (i : nat) : Prop :=
  (0 < cnt i (closedByHandler s))%nat.

(** The connection of the [i]-th handler goroutine has been returned to the
    consumer by [Accept]. *)
Definition delivered_to_consumer (s : State) (i : nat) : Prop :=
  (0 < cnt i (tags (delivered s)))%nat.

(** Every goroutine of the listener has finished. *)
Definition finished (s : State) : Prop :=
  loop_pc s = LDone ∧ watcher_pc s = WDone ∧
  ∀ i h, handlers s !! i = Some h → hpc h = HExit.

(** "Exactly one of closed by its handler goroutine, delivered to the
    consumer" for every accepted connection, once everything has
    finished. *)
Definition closed_xor_delivered (compiledRoute : Handler) (init : State)
  : Prop :=
  ∀ s i h,
    reachable compiledRoute init s → finished s →
    handlers s !! i = Some h →
    (closed_by_handler s i ∨ delivered_to_consumer s i) ∧
    ¬ (closed_by_handler s i ∧ delivered_to_consumer s i).

(** The keepalive policy is in effect on the socket of [conn]: the ioctl
    was issued with the three parameters and succeeded. *)
Definition policy_applied (conn : NetConn) (calls : list SysCall) : Prop :=
  In (CallWSAIoctl (conn_id conn) SIO_KEEPALIVE_VALS
        {| OnOff := 1; Time := 120000; Interval := 15000 |}) calls ∧
  wsaioctl_err (conn_socket conn) = None.

(** A warning record was added to the log. *)
Definition warned (before after : State) : Prop :=
  ∃ e, log after
       = log before
         ++ [log_error WarnLevel "unable to set keepalive for new connection:"
               (Some e)].

(** "The policy is applied, a failure to apply it is logged at warning
    level, and the connection goes on to its handler goroutine" for an
    accepted connection with the keepalive capability. *)
Definition keepalive_applied_or_warned (conn : NetConn) : Prop :=
  implements_tcpConnection conn = true →
  ∀ s rest,
    panicked s = None → loop_pc s = LAccept → raw s = (conn, None) :: rest →
    ∃ s', loop s = Some s' ∧ loop_pc s' = LAdd conn ∧
          (policy_applied conn (syscalls s') ∨ warned s s').

(** ** Scenarios *)
Module Scenario.

Definition socket_ok : Socket :=
  {| syscallConn_err := None; control_err := None; wsaioctl_err := None |}.

Definition EINVAL : errorValue :=
  {| err_addr := 21; err_text := "invalid argument"; err_net := None |}.

Definition ErrClosed : errorValue :=
  {| err_addr := 22; err_text := "use of closed network connection";
     err_net := Some false |}.

Definition ErrTimeout : errorValue :=
  {| err_addr := 23; err_text := "i/o timeout"; err_net := Some true |}.

(** An error with the message of the marker, at another address. *)
Definition lookalike : errorValue :=
  {| err_addr := 24; err_text := "hijacked connection"; err_net := None |}.

Definition tcp (n : nat) : NetConn :=
  {| conn_id := n; conn_kind := KTCPConn; conn_remote := "192.0.2.7:4000";
     conn_socket := socket_ok |}.

(** A [*net.TCPConn] on which the ioctl fails. *)
Definition tcp_ioctl_fails : NetConn :=
  {| conn_id := 8; conn_kind := KTCPConn; conn_remote := "192.0.2.8:4000";
     conn_socket := {| syscallConn_err := None; control_err := None;
                       wsaioctl_err := Some EINVAL |} |}.

(** A connection type that embeds [*net.TCPConn]: it has the two methods
    and is not a [*net.TCPConn]. *)
Definition embedded_tcp : NetConn :=
  {| conn_id := 9; conn_kind := KKeepAliveOther;
     conn_remote := "192.0.2.9:4000"; conn_socket := socket_ok |}.

Definition tls12 : TLSState :=
  {| Version := 0x0303; HandshakeComplete := true; CipherSuite := 0xc02f;
     NegotiatedProtocol := "http/1.1"; ServerName := "example.com" |}.

Definition tls13 : TLSState :=
  {| Version := 0x0304; HandshakeComplete := true; CipherSuite := 0x1301;
     NegotiatedProtocol := "h2"; ServerName := "example.com" |}.

Definition two_states : gmap string Value :=
  {[ "tls_connection_states" := VConnectionStates [Some tls12; Some tls13] ]}.

Definition wrong_type : gmap string Value :=
  {[ "tls_connection_states" := VString "tls1.3" ]}.

Definition chain (o : ChainOutcome) : ChainBehaviour :=
  {| chain_outcome := o; chain_read := 5; chain_written := 2;
     chain_leftover := [104; 101; 108; 108; 111] |}.

(** The chain pipes connection 2, fails connection 4 with the lookalike
    error, and returns nil for the others. *)
Definition route : Handler :=
  λ cx, match conn_id (Conn cx) with
        | 2%nat => chain (Pipes ∅)
        | 4%nat => chain (Returns (Some lookalike))
        | _ => chain (Returns None)
        end.

(** The chain of a listener whose every connection is piped. *)
Definition pipe_all : Handler := λ _, chain (Pipes ∅).

(** All the steps of a handler goroutine whose chain returns, and of one
    whose chain pipes. *)
Definition returning_handle (i : nat) : list Action :=
  replicate 6 (AHandle i).

Definition piping_handle (i : nat) : list Action :=
  replicate 7 (AHandle i).

Definition accept_and_spawn : list Action := [ALoop; ALoop; ALoop].

(** Three connections: the chain returns nil for the first, pipes the
    second, which the consumer accepts, and fails the third with the
    lookalike error. *)
Definition three_conns : State :=
  WrapListener [(tcp 1, None); (tcp 2, None); (tcp 4, None);
                (tcp 0, Some ErrClosed)] 4 [[9; 9]].

Definition three_conns_schedule : list Action :=
  accept_and_spawn ++ accept_and_spawn ++ accept_and_spawn
  ++ returning_handle 0 ++ piping_handle 1 ++ [AAccept]
  ++ returning_handle 2.

Definition three_conns_end : State :=
  default three_conns (run route three_conns three_conns_schedule).

(** One connection is piped; the raw listener fails before the consumer
    calls [Accept], and the loop drains the channel. *)
Definition shutdown : State :=
  WrapListener [(tcp 1, None); (tcp 0, Some ErrClosed)] 1 [].

Definition shutdown_schedule : list Action :=
  accept_and_spawn ++ piping_handle 0
  ++ [ALoop; ALoop; AWatcher; AWatcher; ALoop; ALoop; AAccept].

Definition shutdown_end : State :=
  default shutdown (run pipe_all shutdown shutdown_schedule).

(** A listener about to accept one connection. *)
Definition about_to_accept (conn : NetConn) (err : error) : State :=
  WrapListener [(conn, err)] 1 [].

End Scenario.

(** ** What the accept loop makes of the raw listener's answers *)

(** The connections the loop of lines 90-110 hands to [handle]: those
    returned with a nil error before the first error that is not
    temporary; what comes with a temporary error is skipped. *)
Fixpoint accepted (l : list (NetConn * error)) : list NetConn :=
  match l with
  | [] => []
  | (conn, err) :: rest =>
      if is_temporary err then accepted rest
      else match err with
           | Some _ => []
           | None => conn :: accepted rest
           end
  end.

(** The first error of the raw listener that is not temporary. *)
Fixpoint first_fatal (l : list (NetConn * error)) : error :=
  match l with
  | [] => None
  | (conn, err) :: rest =>
      if is_temporary err then first_fatal rest
      else match err with
           | Some _ => err
           | None => first_fatal rest
           end
  end.

(** The connection the loop holds between its accept and its spawn. *)
Definition pending_conn (pc : LoopPC) : list NetConn :=
  match pc with
  | LAdd conn | LSpawn conn => [conn]
  | _ => []
  end.

(** The [*Connection] inside a value of the channel. *)
Definition underlying (v : ChanConn) : Connection :=
  match v with
  | PlainConn conn => conn
  | TLSConn tc => tls_Conn tc
  end.

(** Records of line 148. *)
Definition is_stats (r : LogRecord) : bool :=
  match log_level r with
  | DebugLevel => true
  | _ => false
  end.

Fixpoint count_stats (l : list LogRecord) : nat :=
  match l with
  | [] => 0
  | r :: rest => ((if is_stats r then 1 else 0) + count_stats rest)%nat
  end.

(** The error record of line 145 never carries nil or the marker. *)
Definition marker_free (r : LogRecord) : Prop :=
  log_msg r = "handling connection" →
  log_err r ≠ None ∧ is_hijacked (log_err r) = false.

(** The panics of a type assertion and of the chain. *)
Definition assertion_or_chain (r : PanicReason) : Prop :=
  r = TypeAssertion ∨ r = HandlerPanic.

Definition script_inv (l : list (NetConn * error)) (s : State) : Prop :=
  if stopped (loop_pc s)
  then map hconn (handlers s) = accepted l
  else ∃ dropped,
         map hconn (handlers s) ++ pending_conn (loop_pc s) ++ dropped
         ++ accepted (raw s) = accepted l ∧
         (panicked s = None → dropped = []).

Definition terminal_inv (l : list (NetConn * error)) (s : State) : Prop :=
  if stopped (loop_pc s)
  then l_err s = first_fatal l
  else first_fatal (raw s) = first_fatal l.

Definition capacity_inv (capacity : nat) (s : State) : Prop :=
  chan_cap (l_connChan s) = capacity ∧
  (length (chan_buf (l_connChan s)) ≤ capacity)%nat.

Definition panic_inv (s : State) : Prop :=
  (∀ r, panicked s = Some r → assertion_or_chain r) ∧
  (∀ i h r, handlers s !! i = Some h → hpanic h = Some r →
            assertion_or_chain r).

(** The channel once all it holds has been received. *)
Definition emptied (ch : Chan) : Chan :=
  {| chan_buf := []; chan_cap := chan_cap ch; chan_closed := chan_closed ch |}.

(** The record of line 93. *)
Definition temporary_record (p : NetConn * error) : LogRecord :=
  log_error ErrorLevel "temporary error accepting connection" p.2.

(** ** More scenarios *)
Module Cases.

(** The chain panics on every connection. *)
Definition panic_route : Handler := λ _, Scenario.chain Panics.

(** The chain pipes every connection with a string in the place of the
    TLS connection states. *)
Definition wrong_type_route : Handler :=
  λ _, Scenario.chain (Pipes Scenario.wrong_type).

(** A sequence of states whose last pointer is nil. *)
Definition nil_last : gmap string Value :=
  {[ "tls_connection_states" := VConnectionStates [Some Scenario.tls12; None] ]}.

(** One connection accepted, its goroutine spawned and not yet run. *)
Definition spawned : State :=
  default (Scenario.about_to_accept (Scenario.tcp 1) None)
    (run Scenario.route (Scenario.about_to_accept (Scenario.tcp 1) None)
       Scenario.accept_and_spawn).

(** The loop has panicked in the keepalive set-up. *)
Definition keepalive_crash : State :=
  default (Scenario.about_to_accept Scenario.embedded_tcp None)
    (run Scenario.route
       (Scenario.about_to_accept Scenario.embedded_tcp None) [ALoop]).

(** One connection is queued and its goroutine has exited. *)
Definition queued : State :=
  default Scenario.shutdown
    (run Scenario.pipe_all Scenario.shutdown
       (Scenario.accept_and_spawn ++ Scenario.piping_handle 0)).

(** The same, and the raw listener has failed. *)
Definition at_break : State :=
  default Scenario.shutdown
    (run Scenario.pipe_all Scenario.shutdown
       (Scenario.accept_and_spawn ++ Scenario.piping_handle 0 ++ [ALoop])).

(** A channel of capacity one is full and a second goroutine is inside
    [pipeConnection]. *)
Definition two_pipes : State :=
  WrapListener [(Scenario.tcp 1, None); (Scenario.tcp 2, None)] 1 [].

Definition full : State :=
  default two_pipes
    (run Scenario.pipe_all two_pipes
       (Scenario.accept_and_spawn ++ Scenario.accept_and_spawn
        ++ Scenario.piping_handle 0 ++ [AHandle 1; AHandle 1])).

(** One connection accepted and its goroutine spawned, while the pool
    holds one buffer with two bytes left in it. *)
Definition dirty_pool : State :=
  default Scenario.three_conns
    (run Scenario.route Scenario.three_conns Scenario.accept_and_spawn).

(** The consumer calls [Accept] before the loop starts its drain. *)
Definition accept_first : list Action :=
  [AAccept; ALoop; AWatcher; AWatcher; ALoop; AAccept].

Definition accept_first_end : State :=
  default at_break (run Scenario.pipe_all at_break accept_first).

(** The chain calls [pipeConnection], drops the marker and returns nil. *)
Definition pipe_then_nil : Handler :=
  λ _, Scenario.chain (PipesThen ∅ (Returns None)).

(** The chain calls [pipeConnection] twice and returns the marker. *)
Definition pipe_twice : Handler :=
  λ _, Scenario.chain (PipesThen ∅ (Pipes ∅)).

End Cases.

(** * Properties *)

(** ** Counting lemmas *)

Lemma total_app w hs h : total w (hs ++ [h]) = (total w hs + w h)%nat.
Proof. induction hs as [|x hs IH]; simpl; lia. Qed.

Lemma total_insert w hs i h h' :
  hs !! i = Some h →
  (total w (<[i := h']> hs) + w h = total w hs + w h')%nat.
Proof.
  revert i. induction hs as [|x hs IH]; intros [|i] H; simpl in *; try done.
  - injection H as ->. lia.
  - specialize (IH i H). lia.
Qed.

Lemma total_lookup_le w hs i h : hs !! i = Some h → (w h ≤ total w hs)%nat.
Proof.
  revert i. induction hs as [|x hs IH]; intros [|i] H; simpl in *; try done.
  - injection H as ->. lia.
  - specialize (IH i H). lia.
Qed.

Lemma cnt_app i l1 l2 : cnt i (l1 ++ l2) = (cnt i l1 + cnt i l2)%nat.
Proof. induction l1 as [|x l1 IH]; simpl; lia. Qed.

Lemma tags_app l1 l2 : tags (l1 ++ l2) = tags l1 ++ tags l2.
Proof. apply map_app. Qed.

Lemma pipeConnection_returns conn v ret :
  pipeConnection conn = PipeSend v ret → ret = Some errHijacked.
Proof.
  unfold pipeConnection.
  destruct (GetVar conn "tls_connection_states") as [[states| | |]|]; try done.
  - destruct (0 <? length states)%nat; [|congruence].
    destruct (states !! _); congruence.
  - simpl. congruence.
Qed.


(** ** The invariant is kept by every step *)

Ltac old_inv HI :=
  first [ exact (inv_wg _ _ HI) | exact (inv_pool _ _ HI)
        | exact (inv_watcher _ _ HI) | exact (inv_zero _ _ HI)
        | exact (inv_closed _ _ HI) | exact (inv_done _ _ HI)
        | exact (inv_err _ _ HI) | exact (inv_panicked _ _ HI)
        | exact (inv_local _ _ HI) | exact (inv_closes _ _ HI)
        | exact (inv_fresh _ _ HI) ].

Ltac inv_facts HI :=
  pose proof (inv_wg _ _ HI) as Hwg;
  pose proof (inv_pool _ _ HI) as Hpool;
  pose proof (inv_watcher _ _ HI) as Hwa;
  pose proof (inv_zero _ _ HI) as Hz;
  pose proof (inv_closed _ _ HI) as Hc;
  pose proof (inv_done _ _ HI) as Hd;
  pose proof (inv_err _ _ HI) as He;
  pose proof (inv_panicked _ _ HI) as Hpan.

Ltac not_spawned Hwa :=
  split;
  [ intros Hx; apply Hwa in Hx; destruct Hx; discriminate
  | intros [Hx|Hx]; discriminate Hx ].

Lemma Inv_keepalive route s conn :
  Inv route s → loop_pc s = LAccept → Inv route (loop_keepalive conn s).
Proof.
  intros HI Hpc. inv_facts HI. rewrite Hpc in *. simpl in *.
  unfold loop_keepalive.
  destruct (implements_tcpConnection conn).
  - destruct (setKeepAliveWorkarround conn) as [calls [r|[e|]]] eqn:Hka.
    + unfold setKeepAliveWorkarround in Hka.
      assert (r = TypeAssertion) as ->.
      { destruct (conn_kind conn); try congruence.
        destruct (syscallConn_err _); [congruence|].
        destruct (control_err _); [congruence|].
        destruct (wsaioctl_err _); congruence. }
      constructor; simpl; rewrite ?Hpc; try old_inv HI; simpl; try done.
    + constructor; simpl; try old_inv HI; simpl; try done; try tauto; not_spawned Hwa.
    + constructor; simpl; try old_inv HI; simpl; try done; try tauto; not_spawned Hwa.
  - constructor; simpl; try old_inv HI; simpl; try done; try tauto; not_spawned Hwa.
Qed.

Lemma loop_preserves route s s' :
  Inv route s → loop s = Some s' → Inv route s'.
Proof.
  intros HI Hstep. unfold loop in Hstep. inv_facts HI.
  destruct (loop_pc s) eqn:Hpc; simpl in *.
  - destruct (raw s) as [|[conn err] rest] eqn:Hraw; [done|].
    destruct (is_temporary err) eqn:Htmp.
    + injection Hstep as <-. constructor; simpl; rewrite ?Hpc; try old_inv HI; done.
    + destruct err as [e|].
      * injection Hstep as <-. constructor; simpl; try old_inv HI; try done.
        -- not_spawned Hwa.
        -- eauto.
      * injection Hstep as <-. apply Inv_keepalive; [|done].
        constructor; simpl; rewrite ?Hpc; try old_inv HI; done.
  - injection Hstep as <-. constructor; simpl; try old_inv HI; try done.
    + lia.
    + not_spawned Hwa.
    + intros Hw. exfalso.
      assert (watcher_pc s ≠ WNone) as Hn
        by (intros Heq; rewrite Heq in Hw; destruct Hw; discriminate).
      apply Hwa in Hn. destruct Hn; discriminate.
  - injection Hstep as <-. constructor; simpl; try old_inv HI; try done.
    + rewrite total_app. change (in_flight (spawn_handle conn)) with 1%nat. lia.
    + rewrite total_app. change (holds_buffer (spawn_handle conn)) with 0%nat. lia.
    + not_spawned Hwa.
    + intros i h Hi. apply lookup_app_Some in Hi as [Hi|[_ Hi]].
      * by eapply inv_local.
      * apply list_lookup_singleton_Some in Hi as [_ <-]. done.
    + intros i h Hi. apply lookup_app_Some in Hi as [Hi|[Hlen Hi]].
      * by eapply inv_closes.
      * apply list_lookup_singleton_Some in Hi as [_ <-]. simpl.
        by apply (inv_fresh _ _ HI).
    + intros i Hi. rewrite length_app in Hi. simpl in Hi. apply (inv_fresh _ _ HI). lia.
  - injection Hstep as <-. constructor; simpl; try old_inv HI; try done.
    + split; [tauto|done].
    + intros [|]; done.
    + rewrite Hc. assert (watcher_pc s = WNone).
      { destruct (watcher_pc s); try done; exfalso; assert (LBreak = LDrain ∨ LBreak = LDone) as [|] by (apply Hwa; done); done. }
      rewrite H. split; done.
  - unfold chan_recv in Hstep.
    destruct (chan_buf (l_connChan s)) as [|x rest] eqn:Hbuf.
    + destruct (chan_closed (l_connChan s)) eqn:Hcl; [|done].
      injection Hstep as <-. constructor; simpl; try old_inv HI; try done.
      * split; [tauto|]. intros _. apply Hwa. tauto.
    + injection Hstep as <-. constructor; simpl; try old_inv HI; rewrite ?Hpc; try done.
      * intros i Hi. destruct (inv_fresh _ _ HI i Hi) as (? & Hb & ? & ?).
        rewrite Hbuf in Hb. rewrite tags_app, cnt_app. simpl in *. repeat split; try done; lia.
  - done.
Qed.

Lemma drainWatcher_preserves route s s' :
  Inv route s → drainWatcher s = Some s' → Inv route s'.
Proof.
  intros HI Hstep. unfold drainWatcher in Hstep. inv_facts HI.
  destruct (watcher_pc s) eqn:Hpc; simpl in *; try done.
  - destruct (l_wg s =? 0) eqn:Hzero; [|done]. apply Z.eqb_eq in Hzero.
    injection Hstep as <-. constructor; simpl; try old_inv HI; try done.
    + rewrite <- Hwa. split; done.
    + rewrite Hc. split; done.
  - destruct (chan_closed (l_connChan s)) eqn:Hcl.
    + injection Hstep as <-. constructor; simpl; try old_inv HI; done.
    + injection Hstep as <-. constructor; simpl; try old_inv HI; try done.
      * rewrite <- Hwa. split; done.
      * auto.
      * intros Hl. destruct (Hd Hl) as [? ?]. done.
Qed.

Lemma consumer_Accept_preserves route s s' :
  Inv route s → consumer_Accept s = Some s' → Inv route s'.
Proof.
  intros HI Hstep. unfold consumer_Accept, Accept, chan_recv in Hstep.
  inv_facts HI.
  destruct (chan_buf (l_connChan s)) as [|x rest] eqn:Hbuf.
  - destruct (chan_closed (l_connChan s)) eqn:Hcl; [|done].
    injection Hstep as <-. constructor; simpl; try old_inv HI; done.
  - injection Hstep as <-. constructor; simpl; try old_inv HI; try done.
    + intros Hl. destruct (Hd Hl) as [? ?]. done.
    + intros i Hi. destruct (inv_fresh _ _ HI i Hi) as (? & Hb & ? & ?).
      rewrite Hbuf in Hb. rewrite tags_app, cnt_app. simpl in *.
      repeat split; try done; lia.
Qed.

Lemma lookup_insert_cases {A} (P : nat → A → Prop) (hs : list A) i h' :
  (i < length hs)%nat →
  P i h' →
  (∀ j hj, j ≠ i → hs !! j = Some hj → P j hj) →
  ∀ j hj, <[i := h']> hs !! j = Some hj → P j hj.
Proof.
  intros Hlt Hi Hother j hj Hj. destruct (decide (j = i)) as [->|Hne].
  - rewrite list_lookup_insert_eq in Hj by done. by injection Hj as <-.
  - rewrite list_lookup_insert_ne in Hj by done. by apply Hother.
Qed.

Lemma pipeConnection_panic_reason conn r :
  pipeConnection conn = PipePanic r → r ≠ SendOnClosedChannel.
Proof.
  unfold pipeConnection.
  destruct (GetVar conn "tls_connection_states") as [[states| | |]|];
    simpl; try congruence.
  destruct (0 <? length states)%nat; [|congruence].
  destruct (states !! _); congruence.
Qed.

Lemma pool_get_out p : pool_out (pool_get p).2 = pool_out p + 1.
Proof. unfold pool_get. by destruct (pool_free p). Qed.

Lemma total_insert_same w hs i h h' :
  hs !! i = Some h → w h' = w h → total w (<[i := h']> hs) = total w hs.
Proof. intros Hi Hw. pose proof (total_insert w hs i h h' Hi). lia. Qed.

Lemma total_insert_dec w hs i h h' :
  hs !! i = Some h → w h = 1%nat → w h' = 0%nat →
  Z.of_nat (total w (<[i := h']> hs)) = Z.of_nat (total w hs) - 1.
Proof. intros Hi Hw Hw'. pose proof (total_insert w hs i h h' Hi). lia. Qed.

Lemma total_insert_inc w hs i h h' :
  hs !! i = Some h → w h = 0%nat → w h' = 1%nat →
  Z.of_nat (total w (<[i := h']> hs)) = Z.of_nat (total w hs) + 1.
Proof. intros Hi Hw Hw'. pose proof (total_insert w hs i h h' Hi). lia. Qed.

Ltac weigh Hpc :=
  unfold in_flight, holds_buffer, panicking, at_pc; simpl; rewrite ?Hpc; done.

Ltac same_totals Hi Hpc :=
  rewrite ?(total_insert_same in_flight _ _ _ _ Hi) by weigh Hpc;
  rewrite ?(total_insert_same holds_buffer _ _ _ _ Hi) by weigh Hpc.

Lemma handle_preserves route s i s' :
  Inv route s → handle route i s = Some s' → Inv route s'.
Proof.
  intros HI Hstep. unfold handle in Hstep. inv_facts HI.
  destruct (handlers s !! i) as [h|] eqn:Hi; [|done].
  pose proof (inv_local _ _ HI i h Hi) as Hloc.
  pose proof (inv_closes _ _ HI i h Hi) as Hcl.
  pose proof (total_lookup_le in_flight _ _ _ Hi) as Hfl.
  pose proof (lookup_lt_Some _ _ _ Hi) as Hlt.
  assert (0 <= pending (loop_pc s)) as Hpend by (destruct (loop_pc s); simpl; lia).
  unfold local_ok in Hloc. unfold exited in Hcl.
  unfold in_flight at 1 in Hfl.
  destruct (hpc h) eqn:Hpc; simpl in Hfl, Hcl, Hloc.
  - (* HStart *)
    destruct (pool_get (bufPool s)) as [b pool] eqn:Hget.
    pose proof (pool_get_out (bufPool s)) as Hout. rewrite Hget in Hout. simpl in Hout.
    injection Hstep as <-. destruct Hloc as [Herr Hpanic].
    constructor; simpl; rewrite ?length_insert; same_totals Hi Hpc; try old_inv HI; try done.
    + rewrite (total_insert_inc holds_buffer _ _ _ _ Hi) by weigh Hpc. lia.
    + apply lookup_insert_cases; [done| |intros; by eapply inv_local].
      unfold local_ok; simpl. done.
    + apply lookup_insert_cases; [done| |intros; by eapply inv_closes].
      unfold exited; simpl. done.
  - (* HHandle *)
    destruct Hloc as (Herr & Hpanic & Hcx).
    destruct (chain_outcome (route (hcx h))) as [e|vs| |vs next] eqn:Hout;
      injection Hstep as <-;
      (constructor; simpl; rewrite ?length_insert; same_totals Hi Hpc; try old_inv HI; try done).
    + apply lookup_insert_cases; [done| |intros; by eapply inv_local].
      unfold local_ok, chain_returned; simpl. rewrite <- Hcx, Hout. done.
    + apply lookup_insert_cases; [done| |intros; by eapply inv_closes].
      unfold exited; simpl. done.
    + apply lookup_insert_cases; [done| |intros; by eapply inv_local].
      unfold local_ok; simpl. rewrite <- Hcx, Hout. eauto.
    + apply lookup_insert_cases; [done| |intros; by eapply inv_closes].
      unfold exited; simpl. done.
    + apply lookup_insert_cases; [done| |intros; by eapply inv_local].
      unfold local_ok; simpl. done.
    + apply lookup_insert_cases; [done| |intros; by eapply inv_closes].
      unfold exited; simpl. done.
    + apply lookup_insert_cases; [done| |intros; by eapply inv_local].
      unfold local_ok; simpl. rewrite <- Hcx, Hout. done.
    + apply lookup_insert_cases; [done| |intros; by eapply inv_closes].
      unfold exited; simpl. done.
  - (* HPipe *)
    destruct Hloc as (Herr & Hpanic & vs & Hout).
    destruct (pipeConnection conn) as [r|v ret] eqn:Hpipe.
    + pose proof (pipeConnection_panic_reason _ _ Hpipe) as Hr.
      injection Hstep as <-.
      constructor; simpl; rewrite ?length_insert; same_totals Hi Hpc; try old_inv HI; try done.
      * apply lookup_insert_cases; [done| |intros; by eapply inv_local].
        unfold local_ok; simpl. done.
      * apply lookup_insert_cases; [done| |intros; by eapply inv_closes].
        unfold exited; simpl. done.
    + apply pipeConnection_returns in Hpipe as ->.
      unfold chan_send in Hstep.
      destruct (chan_closed (l_connChan s)) eqn:Hclosed.
      * exfalso. assert (watcher_pc s = WDone) as Hw by (by apply Hc).
        rewrite Hz in Hwg by auto. lia.
      * destruct (length (chan_buf (l_connChan s)) <? chan_cap (l_connChan s))%nat; [|done].
        injection Hstep as <-.
        constructor; simpl; rewrite ?length_insert; same_totals Hi Hpc; try old_inv HI; try done.
        -- intros Hl. destruct (Hd Hl) as [_ ?]. congruence.
        -- apply lookup_insert_cases; [done| |intros; by eapply inv_local].
           unfold local_ok, chain_returned; simpl. rewrite Hout. done.
        -- apply lookup_insert_cases; [done| |intros; by eapply inv_closes].
           unfold exited; simpl. done.
        -- intros j Hj. destruct (inv_fresh _ _ HI j Hj) as (? & ? & ? & ?).
           rewrite tags_app, cnt_app. simpl.
           assert (j ≠ i) as Hne by lia. apply Nat.eqb_neq in Hne. rewrite Hne.
           repeat split; try done; lia.
  - (* HPipeThen *)
    destruct Hloc as (Herr & Hpanic & Hfin).
    destruct (pipeConnection conn) as [r|v ret] eqn:Hpipe.
    + pose proof (pipeConnection_panic_reason _ _ Hpipe) as Hr.
      injection Hstep as <-.
      constructor; simpl; rewrite ?length_insert; same_totals Hi Hpc; try old_inv HI; try done.
      * apply lookup_insert_cases; [done| |intros; by eapply inv_local].
        unfold local_ok; simpl. done.
      * apply lookup_insert_cases; [done| |intros; by eapply inv_closes].
        unfold exited; simpl. done.
    + unfold chan_send in Hstep.
      destruct (chan_closed (l_connChan s)) eqn:Hclosed.
      * exfalso. assert (watcher_pc s = WDone) as Hw by (by apply Hc).
        rewrite Hz in Hwg by auto. lia.
      * destruct (length (chan_buf (l_connChan s)) <? chan_cap (l_connChan s))%nat; [|done].
        injection Hstep as <-.
        assert (in_flight (chain_goes_on next h) = in_flight h) as Hsame1
          by (destruct next; weigh Hpc).
        assert (holds_buffer (chain_goes_on next h) = holds_buffer h) as Hsame2
          by (destruct next; weigh Hpc).
        constructor; simpl; rewrite ?length_insert;
          rewrite ?(total_insert_same in_flight _ _ _ _ Hi) by done;
          rewrite ?(total_insert_same holds_buffer _ _ _ _ Hi) by done;
          try old_inv HI; try done.
        -- intros Hl. destruct (Hd Hl) as [_ ?]. congruence.
        -- apply lookup_insert_cases; [done| |intros; by eapply inv_local].
           unfold local_ok, chain_returned.
           destruct next; simpl in *; rewrite <- ?Hfin; eauto.
        -- apply lookup_insert_cases; [done| |intros; by eapply inv_closes].
           unfold exited. destruct next; simpl; done.
        -- intros j Hj. destruct (inv_fresh _ _ HI j Hj) as (? & ? & ? & ?).
           rewrite tags_app, cnt_app. simpl.
           assert (j ≠ i) as Hne by lia. apply Nat.eqb_neq in Hne. rewrite Hne.
           repeat split; try done; lia.
  - (* HAfter *)
    destruct Hloc as [Hpanic Hret]. injection Hstep as <-.
    constructor; simpl; rewrite ?length_insert; same_totals Hi Hpc; try old_inv HI; try done.
    + apply lookup_insert_cases; [done| |intros; by eapply inv_local].
      unfold local_ok; simpl. rewrite Hpanic. done.
    + apply lookup_insert_cases; [done| |intros; by eapply inv_closes].
      unfold exited; simpl. done.
  - (* HPut *)
    injection Hstep as <-.
    constructor; simpl; rewrite ?length_insert; same_totals Hi Hpc; try old_inv HI; try done.
    + rewrite (total_insert_dec holds_buffer _ _ _ _ Hi) by weigh Hpc. lia.
    + apply lookup_insert_cases; [done| |intros; by eapply inv_local].
      unfold local_ok; simpl. done.
    + apply lookup_insert_cases; [done| |intros; by eapply inv_closes].
      unfold exited; simpl. done.
  - (* HWgDone *)
    destruct (l_wg s <=? 0) eqn:Hle.
    { exfalso. apply Z.leb_le in Hle. lia. }
    apply Z.leb_gt in Hle. injection Hstep as <-.
    constructor; simpl; rewrite ?length_insert; same_totals Hi Hpc; try old_inv HI; try done.
    + rewrite (total_insert_dec in_flight _ _ _ _ Hi) by weigh Hpc. lia.
    + intros Hw. apply Hz in Hw. lia.
    + apply lookup_insert_cases; [done| |intros; by eapply inv_local].
      unfold local_ok; simpl. done.
    + apply lookup_insert_cases; [done| |intros; by eapply inv_closes].
      unfold exited; simpl. done.
  - (* HClose *)
    injection Hstep as <-.
    constructor; simpl; rewrite ?length_insert; same_totals Hi Hpc; try old_inv HI; try done.
    + destruct (hpanic h) as [r|]; [|done]. destruct Hloc as [_ Hr]. congruence.
    + apply lookup_insert_cases; [done| |intros; by eapply inv_local].
      unfold local_ok; simpl. done.
    + apply lookup_insert_cases; [done| |].
      * unfold exited; simpl. rewrite cnt_app, Hcl. simpl.
        destruct (closes_conn (herr h)); simpl; rewrite ?Nat.eqb_refl; done.
      * intros j hj Hne Hj. rewrite cnt_app, (inv_closes _ _ HI j hj Hj).
        destruct (closes_conn (herr h)); simpl; [|lia].
        apply Nat.eqb_neq in Hne. rewrite Hne. lia.
    + intros j Hj. destruct (inv_fresh _ _ HI j Hj) as (? & ? & ? & ?).
      rewrite cnt_app. destruct (closes_conn (herr h)); simpl.
      * assert (j ≠ i) as Hne by lia. apply Nat.eqb_neq in Hne. rewrite Hne.
        repeat split; try done; lia.
      * repeat split; try done; lia.
  - done.
Qed.

Lemma step_preserves route s a s' :
  Inv route s → step route s a = Some s' → Inv route s'.
Proof.
  intros HI Hstep. unfold step in Hstep.
  destruct (panicked s); [done|].
  destruct a.
  - by eapply loop_preserves.
  - by eapply drainWatcher_preserves.
  - by eapply handle_preserves.
  - by eapply consumer_Accept_preserves.
Qed.

Lemma Inv_WrapListener route l capacity pool :
  Inv route (WrapListener l capacity pool).
Proof.
  constructor; simpl; try done.
  split; [done|]. intros [|]; done.
Qed.

Lemma reachable_Inv route l capacity pool s :
  reachable route (WrapListener l capacity pool) s → Inv route s.
Proof.
  induction 1 as [|s a s' _ IH Hstep].
  - apply Inv_WrapListener.
  - by eapply step_preserves.
Qed.

(** ** Executions *)

Lemma run_reachable route init sched : ∀ s s',
  reachable route init s → run route s sched = Some s' →
  reachable route init s'.
Proof.
  induction sched as [|a sched IH]; intros s s' Hs Hrun; simpl in Hrun.
  - by injection Hrun as <-.
  - destruct (step route s a) as [s1|] eqn:Hstep; [|done].
    eapply IH; [|done]. by eapply reachable_step.
Qed.

Lemma total_zero_all w hs :
  (∀ i h, hs !! i = Some h → w h = 0%nat) → total w hs = 0%nat.
Proof.
  induction hs as [|x hs IH]; intros H; simpl; [done|].
  rewrite (H 0%nat x) by done. rewrite IH; [done|].
  intros i h Hi. by apply (H (S i)).
Qed.

Lemma total_zero_lookup w hs i h :
  total w hs = 0%nat → hs !! i = Some h → w h = 0%nat.
Proof. intros Ht Hi. pose proof (total_lookup_le w hs i h Hi). lia. Qed.

Lemma stopped_step route s a s' :
  step route s a = Some s' → stopped (loop_pc s) = true →
  stopped (loop_pc s') = true ∧ raw s' = raw s ∧ l_err s' = l_err s ∧
  length (handlers s') = length (handlers s).
Proof.
  unfold step. destruct (panicked s); [done|]. destruct a.
  - unfold loop. intros Hstep Hs. revert Hstep.
    destruct (loop_pc s) eqn:Hpc; try discriminate Hs; simpl; try done.
    + intros ?; simplify_eq/=. done.
    + destruct (chan_recv (l_connChan s)); intros ?; simplify_eq/=;
        rewrite ?Hpc; done.
  - unfold drainWatcher. destruct (watcher_pc s); try done.
    + destruct (l_wg s =? 0); intros ?; simplify_eq/=; done.
    + destruct (chan_closed (l_connChan s)); intros ?; simplify_eq/=; done.
  - unfold handle. destruct (handlers s !! i) as [h|]; [|done].
    destruct (hpc h).
    + destruct (pool_get (bufPool s)). intros ?; simplify_eq/=.
      by rewrite length_insert.
    + destruct (chain_outcome _); intros ?; simplify_eq/=;
        by rewrite length_insert.
    + destruct (pipeConnection conn).
      * intros ?; simplify_eq/=; simpl. by rewrite length_insert.
      * destruct (chan_send _ _); intros ?; simplify_eq/=;
          by rewrite length_insert.
    + destruct (pipeConnection conn).
      * intros ?; simplify_eq/=; simpl. by rewrite length_insert.
      * destruct (chan_send _ _); intros ?; simplify_eq/=;
          by rewrite length_insert.
    + intros ?; simplify_eq/=; simpl. by rewrite length_insert.
    + intros ?; simplify_eq/=; simpl. by rewrite length_insert.
    + destruct (l_wg s <=? 0); intros ?; simplify_eq/=;
        by rewrite length_insert.
    + intros ?; simplify_eq/=; simpl. by rewrite length_insert.
    + done.
  - unfold consumer_Accept.
    destruct (Accept _ _) as [[ch [[x|] e]]|]; intros ?; simplify_eq/=; done.
Qed.

Lemma stopped_run route sched : ∀ s s',
  run route s sched = Some s' → stopped (loop_pc s) = true →
  stopped (loop_pc s') = true ∧ raw s' = raw s ∧ l_err s' = l_err s ∧
  length (handlers s') = length (handlers s).
Proof.
  induction sched as [|a sched IH]; intros s s' Hrun Hs; simpl in Hrun.
  - by injection Hrun as <-.
  - destruct (step route s a) as [s1|] eqn:Hstep; [|done].
    destruct (stopped_step _ _ _ _ Hstep Hs) as (H1 & H2 & H3 & H4).
    destruct (IH _ _ Hrun H1) as (? & ? & ? & ?).
    repeat split; congruence.
Qed.

Lemma closed_no_in_flight route s :
  Inv route s → chan_closed (l_connChan s) = true →
  stopped (loop_pc s) = true ∧ l_wg s = 0 ∧
  total in_flight (handlers s) = 0%nat.
Proof.
  intros HI Hclosed.
  apply (inv_closed _ _ HI) in Hclosed as Hw.
  assert (watcher_pc s ≠ WNone) as Hn by (rewrite Hw; done).
  apply (inv_watcher _ _ HI) in Hn.
  pose proof (inv_zero _ _ HI (or_intror Hw)) as Hz.
  pose proof (inv_wg _ _ HI) as Hwg.
  split; [by destruct Hn as [-> | ->]|]. split; [done|].
  destruct Hn as [Hl | Hl]; rewrite Hl in Hwg; simpl in Hwg; lia.
Qed.

(** ** More invariants of the steps *)

Ltac step_cases Hstep :=
  unfold step, loop, loop_keepalive, drainWatcher, handle, consumer_Accept,
    Accept, chan_recv, chan_send in Hstep;
  repeat case_match; simplify_eq/=.

Ltac use_pc :=
  simpl in *;
  repeat match goal with
         | H : loop_pc _ = _ |- _ => rewrite H in *; clear H
         end;
  simpl in *.

Lemma capacity_step route capacity s a s' :
  capacity_inv capacity s → step route s a = Some s' →
  capacity_inv capacity s'.
Proof.
  intros [Hcap Hlen] Hstep. unfold capacity_inv.
  step_cases Hstep; try done.
  all: split; [done|]; rewrite ?length_app; simpl;
    repeat match goal with
           | H : (_ <? _)%nat = true |- _ => apply Nat.ltb_lt in H
           end; try lia.
  all: match goal with H : chan_buf _ = _ |- _ => rewrite H end; simpl; lia.
Qed.

Lemma terminal_step route l s a s' :
  terminal_inv l s → step route s a = Some s' → terminal_inv l s'.
Proof.
  intros Hinv Hstep.
  step_cases Hstep; unfold terminal_inv in *; use_pc; try done.
  all: match goal with
       | H : raw _ = _, H' : first_fatal (raw _) = _ |- _ =>
           rewrite H in H'; simpl in H'
       end;
    repeat match goal with
           | H : is_temporary _ = _, H' : context [is_temporary _] |- _ =>
               rewrite H in H'
           | H : match err_net _ with _ => _ end = _ |- _ =>
               rewrite H in *
           end; try done.
Qed.

Lemma map_hconn_insert hs i h h' :
  hs !! i = Some h → hconn h' = hconn h →
  map hconn (<[i := h']> hs) = map hconn hs.
Proof.
  revert i. induction hs as [|x hs IH]; intros [|i] Hi Hh; simpl in *;
    try done.
  - injection Hi as ->. by rewrite Hh.
  - f_equal. by apply IH.
Qed.

Lemma hconn_chain_goes_on next h : hconn (chain_goes_on next h) = hconn h.
Proof. by destruct next. Qed.

Lemma script_step route l s a s' :
  script_inv l s → step route s a = Some s' → script_inv l s'.
Proof.
  intros Hinv Hstep.
  step_cases Hstep; unfold script_inv in *; use_pc;
    rewrite ?(map_hconn_insert _ _ _ _ ltac:(eassumption))
      by (done || apply hconn_chain_goes_on);
    try done.
  all: try (match goal with
            | |- context [stopped (loop_pc ?s0)] =>
                destruct (stopped (loop_pc s0))
            end; [done|];
            destruct Hinv as (d & Heq & Hd); exists d; split; [done|];
            intros _; by apply Hd).
  all: destruct Hinv as (d & Heq & Hd);
    match goal with H : panicked _ = None |- _ => rewrite (Hd H) in Heq end;
    simpl in Heq;
    try match goal with H : raw _ = _ |- _ =>
          rewrite H in Heq; simpl in Heq end;
    repeat match goal with
           | H : is_temporary _ = _ |- _ => rewrite H in Heq
           | H : match err_net _ with _ => _ end = _ |- _ => rewrite H in Heq
           end.
  - by exists [].
  - by rewrite app_nil_r in Heq.
  - exists [n]. split; [done|]. intros; discriminate.
  - by exists [].
  - by exists [].
  - by exists [].
  - exists []. split; [|done]. rewrite map_app, <- app_assoc. done.
Qed.


Lemma handle_log_marker_free cx err : Forall marker_free (handle_log cx err).
Proof.
  unfold handle_log. apply Forall_app. split.
  - destruct (logs_error err) eqn:Hl; [|constructor].
    constructor; [|constructor]. intros _. simpl.
    unfold logs_error in Hl. destruct err as [e|]; [|done].
    split; [done|]. by destruct (is_hijacked (Some e)).
  - constructor; [|constructor]. intros Hmsg. simpl in Hmsg. done.
Qed.

Lemma log_step route s a s' :
  Forall marker_free (log s) → step route s a = Some s' →
  Forall marker_free (log s').
Proof.
  intros Hinv Hstep.
  step_cases Hstep; try done.
  all: apply Forall_app; split; [done|].
  all: try apply handle_log_marker_free.
  all: constructor; [|constructor]; intros Hmsg; simpl in Hmsg; done.
Qed.

Lemma pipeConnection_panics_only_on_assertion conn r :
  pipeConnection conn = PipePanic r → r = TypeAssertion.
Proof.
  unfold pipeConnection.
  destruct (GetVar conn "tls_connection_states") as [[states| | |]|];
    simpl; try congruence.
  destruct (0 <? length states)%nat eqn:Hlen; [|congruence].
  destruct (states !! _) eqn:Hlast; [congruence|].
  apply Nat.ltb_lt in Hlen. apply lookup_ge_None in Hlast. lia.
Qed.

Lemma keepalive_panics_only_on_assertion conn calls r :
  setKeepAliveWorkarround conn = (calls, KAPanic r) → r = TypeAssertion.
Proof.
  unfold setKeepAliveWorkarround. repeat case_match; congruence.
Qed.

Lemma in_flight_wg route s i h :
  Inv route s → handlers s !! i = Some h → in_flight h = 1%nat → 0 < l_wg s.
Proof.
  intros HI Hi Hw. pose proof (inv_wg _ _ HI) as Hwg.
  pose proof (total_lookup_le in_flight _ _ _ Hi).
  assert (0 <= pending (loop_pc s)) by (destruct (loop_pc s); simpl; lia).
  lia.
Qed.

Ltac absurd_state HI :=
  exfalso;
  match goal with
  | Hcl : chan_closed _ = true, Hw : watcher_pc _ = WClose |- _ =>
      apply (inv_closed _ _ HI) in Hcl; congruence
  | Hcl : chan_closed _ = true, Hi : handlers _ !! _ = Some ?h,
    Hpc : hpc ?h = HPipe _ |- _ =>
      destruct (closed_no_in_flight _ _ HI Hcl) as (_ & Hz & _);
      pose proof (in_flight_wg _ _ _ _ HI Hi
                    ltac:(unfold in_flight; by rewrite Hpc));
      lia
  | Hcl : chan_closed _ = true, Hi : handlers _ !! _ = Some ?h,
    Hpc : hpc ?h = HPipeThen _ _ |- _ =>
      destruct (closed_no_in_flight _ _ HI Hcl) as (_ & Hz & _);
      pose proof (in_flight_wg _ _ _ _ HI Hi
                    ltac:(unfold in_flight; by rewrite Hpc));
      lia
  | Hle : (_ <=? 0) = true, Hi : handlers _ !! _ = Some ?h,
    Hpc : hpc ?h = HWgDone |- _ =>
      apply Z.leb_le in Hle;
      pose proof (in_flight_wg _ _ _ _ HI Hi
                    ltac:(unfold in_flight; by rewrite Hpc));
      lia
  end.

Lemma panic_step route s a s' :
  Inv route s → panic_inv s → step route s a = Some s' → panic_inv s'.
Proof.
  intros HI [Hp Hh] Hstep.
  step_cases Hstep; unfold panic_inv; simpl.
  all: try (absurd_state HI; fail).
  all: split.
  all: try exact Hp; try exact Hh.
  all: try (intros r0 [= <-]; left;
            eapply keepalive_panics_only_on_assertion; eassumption).
  all: try (intros r0 Hr0; eapply Hh; eassumption).
  all: try (intros i0 h0 r0 Hi0 Hr0;
            apply lookup_app_Some in Hi0 as [Hi0|[_ Hi0]];
            [by eapply Hh
            |apply list_lookup_singleton_Some in Hi0 as [_ <-]; done]).
  all: try (intros r0 Hr0; congruence).
  all: intros i0 h0 r0 Hi0 Hr0;
    apply list_lookup_insert_Some in Hi0 as [(<- & <- & _) | [_ Hi0]];
    [|by eapply Hh].
  all: try match goal with
           | H : hpanic (chain_goes_on ?next _) = _ |- _ => destruct next
           end.
  all: simpl in Hr0.
  all: try (by eapply Hh).
  all: try (injection Hr0 as <-).
  all: try (by right).
  all: left; by eapply pipeConnection_panics_only_on_assertion.
Qed.

Lemma count_stats_app l1 l2 :
  count_stats (l1 ++ l2) = (count_stats l1 + count_stats l2)%nat.
Proof. induction l1 as [|x l1 IH]; simpl; lia. Qed.

Lemma lookup_ge_handlers route s i :
  Inv route s → (length (handlers s) ≤ i)%nat →
  (cnt i (closedByHandler s) + cnt i (tags (chan_buf (l_connChan s)))
   + cnt i (tags (delivered s)) + cnt i (tags (drained s)) = 0)%nat.
Proof.
  intros HI Hi. destruct (inv_fresh _ _ HI i Hi) as (-> & -> & -> & ->). done.
Qed.

(** ** Chains that pipe at most once *)

Lemma final_outcome_once o :
  (∀ vs next, o ≠ PipesThen vs next) → final_outcome o = o.
Proof. intros H. destruct o; try done. by destruct (H vs o). Qed.

Lemma sent_inv_same route s s' i h h' :
  sent_inv route s → handlers s !! i = Some h →
  handlers s' = <[i := h']> (handlers s) →
  hconn h' = hconn h → has_sent route h' = has_sent route h →
  (∀ conn next, hpc h' ≠ HPipeThen conn next) →
  chan_buf (l_connChan s') = chan_buf (l_connChan s) →
  delivered s' = delivered s → drained s' = drained s →
  sent_inv route s'.
Proof.
  intros HS Hi Hh Hc Hs Hn Hb Hd Hr. unfold sent_inv.
  rewrite Hh, Hb, Hd, Hr.
  apply lookup_insert_cases; [by eapply lookup_lt_Some| |].
  - split; [done|]. rewrite Hs. by apply HS.
  - intros j hj _ Hj. by apply HS.
Qed.

Lemma sent_inv_send route s s' i h h' v :
  Inv route s → sent_inv route s → handlers s !! i = Some h →
  handlers s' = <[i := h']> (handlers s) →
  has_sent route h = false → has_sent route h' = true →
  (∀ conn next, hpc h' ≠ HPipeThen conn next) →
  chan_buf (l_connChan s') = chan_buf (l_connChan s) ++ [(i, v)] →
  delivered s' = delivered s → drained s' = drained s →
  sent_inv route s'.
Proof.
  intros HI HS Hi Hh H0 H1 Hn Hb Hd Hr. unfold sent_inv.
  rewrite Hh, Hb, Hd, Hr.
  apply lookup_insert_cases; [by eapply lookup_lt_Some| |].
  - split; [done|]. rewrite H1. destruct (HS i h Hi) as [_ Hcnt].
    rewrite H0 in Hcnt. rewrite tags_app, cnt_app. simpl.
    rewrite Nat.eqb_refl. lia.
  - intros j hj Hne Hj. destruct (HS j hj Hj) as [Hnp Hcnt].
    split; [done|]. rewrite tags_app, cnt_app. simpl.
    apply Nat.eqb_neq in Hne. rewrite Hne. lia.
Qed.

Lemma sent_handle route s i s' :
  pipes_at_most_once route → Inv route s → sent_inv route s →
  handle route i s = Some s' → sent_inv route s'.
Proof.
  intros Honce HI HS Hstep. unfold handle in Hstep.
  destruct (handlers s !! i) as [h|] eqn:Hi; [|done].
  destruct (HS i h Hi) as [Hnp Hcnt].
  pose proof (inv_local _ _ HI i h Hi) as Hloc. unfold local_ok in Hloc.
  destruct (hpc h) eqn:Hpc.
  - (* HStart *)
    destruct (pool_get (bufPool s)) as [b pool]. injection Hstep as <-.
    eapply sent_inv_same; [exact HS|exact Hi|reflexivity|..]; simpl; try done.
    unfold has_sent. simpl. by rewrite Hpc.
  - (* HHandle *)
    destruct Hloc as (Herr & Hpanic & Hcx).
    destruct (chain_outcome (route (hcx h))) as [e|vs| |vs next] eqn:Hout;
      [| | |by destruct (Honce (hcx h) vs next)];
      injection Hstep as <-;
      (eapply sent_inv_same; [exact HS|exact Hi|reflexivity|..]; simpl; try done);
      unfold has_sent; simpl; rewrite ?Hpc, ?Hpanic, <- ?Hcx, ?Hout; done.
  - (* HPipe *)
    destruct Hloc as (Herr & Hpanic & vs & Hout).
    rewrite final_outcome_once in Hout by apply Honce.
    destruct (pipeConnection conn) as [r|v ret] eqn:Hpipe.
    + injection Hstep as <-.
      eapply sent_inv_same; [exact HS|exact Hi|reflexivity|..]; simpl; try done.
      unfold has_sent. simpl. by rewrite Hpc.
    + unfold chan_send in Hstep.
      destruct (chan_closed (l_connChan s)).
      * injection Hstep as <-.
        eapply sent_inv_same; [exact HS|exact Hi|reflexivity|..]; simpl; try done.
        unfold has_sent. simpl. by rewrite Hpc.
      * destruct (length (chan_buf (l_connChan s))
                  <? chan_cap (l_connChan s))%nat; [|done].
        injection Hstep as <-.
        eapply sent_inv_send; [exact HI|exact HS|exact Hi|reflexivity|..]; simpl; try done.
        -- unfold has_sent. by rewrite Hpc.
        -- unfold has_sent. simpl. by rewrite Hpanic, Hout.
  - (* HPipeThen *)
    by destruct (Hnp conn next).
  - (* HAfter *)
    injection Hstep as <-.
    eapply sent_inv_same; [exact HS|exact Hi|reflexivity|..]; simpl; try done.
    unfold has_sent. simpl. by rewrite Hpc.
  - (* HPut *)
    injection Hstep as <-.
    eapply sent_inv_same; [exact HS|exact Hi|reflexivity|..]; simpl; try done.
    unfold has_sent. simpl. by rewrite Hpc.
  - (* HWgDone *)
    destruct (l_wg s <=? 0); injection Hstep as <-;
      (eapply sent_inv_same; [exact HS|exact Hi|reflexivity|..]; simpl; try done);
      unfold has_sent; simpl; by rewrite Hpc.
  - (* HClose *)
    injection Hstep as <-.
    eapply sent_inv_same; [exact HS|exact Hi|reflexivity|..]; simpl; try done.
    unfold has_sent. simpl. by rewrite Hpc.
  - done.
Qed.

Lemma sent_inv_received route s s' x rest :
  sent_inv route s → handlers s' = handlers s →
  chan_buf (l_connChan s) = x :: rest →
  chan_buf (l_connChan s') = rest →
  (delivered s' = delivered s ++ [x] ∧ drained s' = drained s ∨
   delivered s' = delivered s ∧ drained s' = drained s ++ [x]) →
  sent_inv route s'.
Proof.
  intros HS Hh Hb Hb' Hcase j hj Hj. rewrite Hh in Hj.
  destruct (HS j hj Hj) as [Hnp Hcnt]. split; [done|].
  rewrite Hb in Hcnt. rewrite Hb'. simpl in Hcnt.
  destruct Hcase as [[-> ->]|[-> ->]]; rewrite tags_app, cnt_app; simpl; lia.
Qed.

Lemma sent_inv_unchanged route s s' :
  sent_inv route s → handlers s' = handlers s →
  chan_buf (l_connChan s') = chan_buf (l_connChan s) →
  delivered s' = delivered s → drained s' = drained s →
  sent_inv route s'.
Proof.
  intros HS Hh Hb Hd Hr. unfold sent_inv. by rewrite Hh, Hb, Hd, Hr.
Qed.

Lemma sent_step route s a s' :
  pipes_at_most_once route → Inv route s → sent_inv route s →
  step route s a = Some s' → sent_inv route s'.
Proof.
  intros Honce HI HS Hstep. unfold step in Hstep.
  destruct (panicked s); [done|]. destruct a.
  - unfold loop, loop_keepalive, chan_recv in Hstep.
    repeat case_match; simplify_eq/=;
      try (eapply sent_inv_unchanged; [exact HS|done..]).
    + intros j hj Hj. simpl in Hj.
      apply lookup_app_Some in Hj as [Hj|[Hlen Hj]]; [by apply HS|].
      apply list_lookup_singleton_Some in Hj as [Hj <-].
      split; [done|]. simpl.
      destruct (inv_fresh _ _ HI j Hlen) as (_ & -> & -> & ->).
      unfold has_sent. simpl. done.
    + eapply sent_inv_received; [exact HS|done|eassumption|done|].
      right. done.
  - unfold drainWatcher in Hstep.
    repeat case_match; simplify_eq/=;
      eapply sent_inv_unchanged; [exact HS|done..].
  - by eapply sent_handle.
  - unfold consumer_Accept, Accept, chan_recv in Hstep.
    repeat case_match; simplify_eq/=.
    + eapply sent_inv_received; [exact HS|done|eassumption|done|].
      left. done.
    + eapply sent_inv_unchanged; [exact HS|done..].
Qed.

Lemma reachable_sent route l capacity pool s :
  pipes_at_most_once route →
  reachable route (WrapListener l capacity pool) s → sent_inv route s.
Proof.
  intros Honce. induction 1 as [|s a s' Hreach IH Hstep].
  - intros i h Hi. done.
  - eapply sent_step; [done| |done..]. by eapply reachable_Inv.
Qed.

(** ** The buffers of the pool *)

Lemma owned_app hs h :
  owned (hs ++ [h])
  = owned hs ++ (if Nat.eqb (holds_buffer h) 1 then [hbuf h] else []).
Proof. unfold owned. rewrite flat_map_app. simpl. by rewrite app_nil_r. Qed.

Lemma owned_insert_same hs i h h' :
  hs !! i = Some h → holds_buffer h' = holds_buffer h → hbuf h' = hbuf h →
  owned (<[i := h']> hs) = owned hs.
Proof.
  revert i. induction hs as [|x hs IH]; intros [|i] Hi Hw Hb; simpl in *;
    try done.
  - injection Hi as ->. unfold owned. simpl. by rewrite Hw, Hb.
  - unfold owned in *. simpl. f_equal. by apply IH.
Qed.

Lemma owned_insert_get hs i h h' :
  hs !! i = Some h → holds_buffer h = 0%nat → holds_buffer h' = 1%nat →
  owned (<[i := h']> hs) ≡ₚ hbuf h' :: owned hs.
Proof.
  revert i. induction hs as [|x hs IH]; intros [|i] Hi Hw Hw'; simpl in *;
    try done.
  - injection Hi as ->. unfold owned. simpl. by rewrite Hw, Hw'.
  - unfold owned in *. simpl. rewrite (IH i) by done.
    by rewrite Permutation_middle.
Qed.

Lemma owned_insert_put hs i h h' :
  hs !! i = Some h → holds_buffer h = 1%nat → holds_buffer h' = 0%nat →
  owned hs ≡ₚ hbuf h :: owned (<[i := h']> hs).
Proof.
  revert i. induction hs as [|x hs IH]; intros [|i] Hi Hw Hw'; simpl in *;
    try done.
  - injection Hi as ->. unfold owned. simpl. by rewrite Hw, Hw'.
  - unfold owned in *. simpl. rewrite (IH i) at 1 by done.
    by rewrite Permutation_middle.
Qed.

Lemma buffers_WrapListener l capacity pool :
  buffers (WrapListener l capacity pool)
  = seq 0 (pool_next (bufPool (WrapListener l capacity pool))).
Proof.
  unfold buffers. simpl. rewrite app_nil_r.
  rewrite fmap_imap.
  rewrite (imap_ext _ (λ j _, id j)) by done.
  rewrite imap_seq_0. by rewrite list_fmap_id.
Qed.

Lemma holds_chain_goes_on next h :
  holds_buffer (chain_goes_on next h) = 1%nat.
Proof. by destruct next. Qed.

Lemma hbuf_chain_goes_on next h : hbuf (chain_goes_on next h) = hbuf h.
Proof. by destruct next. Qed.

(** The buffers in the pool and those held are the buffers allocated. *)
Lemma buffers_handle route s i s' :
  buffers s ≡ₚ seq 0 (pool_next (bufPool s)) →
  handle route i s = Some s' →
  buffers s' ≡ₚ seq 0 (pool_next (bufPool s')).
Proof.
  intros HB Hstep. unfold handle in Hstep.
  destruct (handlers s !! i) as [h|] eqn:Hi; [|done].
  assert (∀ h' s1, handlers s1 = <[i := h']> (handlers s) →
            bufPool s1 = bufPool s →
            holds_buffer h' = holds_buffer h → hbuf h' = hbuf h →
            buffers s1 ≡ₚ seq 0 (pool_next (bufPool s1))) as Hsame.
  { intros h' s1 Hh Hp Hw Hb. unfold buffers. rewrite Hh, Hp.
    by rewrite (owned_insert_same _ _ _ _ Hi Hw Hb). }
  destruct (hpc h) eqn:Hpc.
  - (* HStart *)
    unfold pool_get in Hstep. unfold buffers in *.
    destruct (pool_free (bufPool s)) as [|b rest] eqn:Hfree;
      injection Hstep as <-; simpl in *.
    + rewrite (owned_insert_get _ _ _ _ Hi) by (unfold holds_buffer; simpl; by rewrite ?Hpc).
      simpl.
      change (0%nat :: seq 1 (pool_next (bufPool s)))
        with (seq 0 (S (pool_next (bufPool s)))).
      rewrite seq_S. simpl. rewrite <- HB. by rewrite Permutation_cons_append.
    + rewrite (owned_insert_get _ _ _ _ Hi) by (unfold holds_buffer; simpl; by rewrite ?Hpc).
      simpl. rewrite <- HB. by rewrite Permutation_middle.
  - destruct (chain_outcome _); injection Hstep as <-;
      (eapply Hsame; [reflexivity|reflexivity|..]);
      unfold holds_buffer; simpl; by rewrite ?Hpc.
  - destruct (pipeConnection conn); [|destruct (chan_send _ _)];
      try done; injection Hstep as <-;
      (eapply Hsame; [reflexivity|reflexivity|..]);
      unfold holds_buffer; simpl; by rewrite ?Hpc.
  - destruct (pipeConnection conn); [|destruct (chan_send _ _)];
      try done; injection Hstep as <-;
      (eapply Hsame; [reflexivity|reflexivity|..]);
      rewrite ?holds_chain_goes_on, ?hbuf_chain_goes_on;
      unfold holds_buffer; simpl; by rewrite ?Hpc.
  - injection Hstep as <-.
    (eapply Hsame; [reflexivity|reflexivity|..]);
      unfold holds_buffer; simpl; by rewrite ?Hpc.
  - (* HPut *)
    injection Hstep as <-. unfold buffers in *. simpl.
    rewrite <- HB.
    rewrite (owned_insert_put _ _ _ (at_pc HWgDone h) Hi)
      by (unfold holds_buffer; simpl; by rewrite ?Hpc).
    by rewrite Permutation_middle.
  - destruct (l_wg s <=? 0); injection Hstep as <-;
      (eapply Hsame; [reflexivity|reflexivity|..]);
      unfold holds_buffer; simpl; by rewrite ?Hpc.
  - injection Hstep as <-.
    (eapply Hsame; [reflexivity|reflexivity|..]);
      unfold holds_buffer; simpl; by rewrite ?Hpc.
  - done.
Qed.

Lemma buffers_step route s a s' :
  buffers s ≡ₚ seq 0 (pool_next (bufPool s)) →
  step route s a = Some s' →
  buffers s' ≡ₚ seq 0 (pool_next (bufPool s')).
Proof.
  intros HB Hstep. unfold step in Hstep.
  destruct (panicked s); [done|]. destruct a.
  - unfold loop, loop_keepalive, chan_recv in Hstep.
    repeat case_match; simplify_eq/=; try exact HB.
    unfold buffers in *. simpl. rewrite owned_app. simpl.
    by rewrite app_nil_r.
  - unfold drainWatcher in Hstep. repeat case_match; simplify_eq/=; exact HB.
  - by eapply buffers_handle.
  - unfold consumer_Accept, Accept, chan_recv in Hstep.
    repeat case_match; simplify_eq/=; exact HB.
Qed.

Lemma reachable_buffers route l capacity pool s :
  reachable route (WrapListener l capacity pool) s →
  buffers s ≡ₚ seq 0 (pool_next (bufPool s)).
Proof.
  induction 1 as [|s a s' Hreach IH Hstep].
  - by rewrite buffers_WrapListener.
  - by eapply buffers_step.
Qed.

(** The first step of [handle] is the [Get] and the [Reset]; the step at
    the deferred [Put] puts back the buffer the goroutine holds. *)
Lemma handle_get route s i h :
  panicked s = None → handlers s !! i = Some h → hpc h = HStart →
  ∃ s1 h1,
    step route s (AHandle i) = Some s1 ∧ handlers s1 !! i = Some h1 ∧
    bufPool s1 = (pool_get (bufPool s)).2 ∧
    hbuf h1 = buf_addr (pool_get (bufPool s)).1 ∧
    hcx h1 = WrapConnection (hconn h) [] ∧ hpc h1 = HHandle.
Proof.
  intros Hpan Hi Hpc. unfold step, handle. rewrite Hpan, Hi, Hpc.
  destruct (pool_get (bufPool s)) as [b p].
  eexists. eexists. split; [done|]. simpl.
  rewrite list_lookup_insert_eq by (by eapply lookup_lt_Some). done.
Qed.

Lemma handle_put route s i h :
  panicked s = None → handlers s !! i = Some h → hpc h = HPut →
  ∃ s1,
    step route s (AHandle i) = Some s1 ∧
    bufPool s1
    = pool_put {| buf_addr := hbuf h; buf_bytes := buf (hcx h) |} (bufPool s) ∧
    (hpc <$> handlers s1 !! i) = Some HWgDone.
Proof.
  intros Hpan Hi Hpc. unfold step, handle. rewrite Hpan, Hi, Hpc.
  eexists. split; [done|]. simpl.
  rewrite list_lookup_insert_eq by (by eapply lookup_lt_Some). done.
Qed.

(** A goroutine stops holding its buffer only by its own [Put]. *)
Lemma handle_keeps_buffer route s a s1 i h :
  step route s a = Some s1 → handlers s !! i = Some h →
  holds_buffer h = 1%nat →
  ∃ h1, handlers s1 !! i = Some h1 ∧ hbuf h1 = hbuf h ∧
        (holds_buffer h1 = 1%nat ∨
         a = AHandle i ∧ hpc h = HPut ∧
         bufPool s1
         = pool_put {| buf_addr := hbuf h; buf_bytes := buf (hcx h) |}
             (bufPool s)).
Proof.
  intros Hstep Hi Hw. unfold step in Hstep.
  assert (∀ s2, handlers s2 = handlers s →
            ∃ h1, handlers s2 !! i = Some h1 ∧ hbuf h1 = hbuf h ∧
                  (holds_buffer h1 = 1%nat ∨
                   a = AHandle i ∧ hpc h = HPut ∧
                   bufPool s2
                   = pool_put {| buf_addr := hbuf h;
                                 buf_bytes := buf (hcx h) |} (bufPool s)))
    as Hsame.
  { intros s2 Hh. exists h. rewrite Hh. by auto. }
  destruct (panicked s); [done|]. destruct a as [| |j|].
  - unfold loop, loop_keepalive, chan_recv in Hstep.
    repeat case_match; simplify_eq/=; try (by apply Hsame).
    exists h. split; [by apply lookup_app_l_Some|]. by auto.
  - unfold drainWatcher in Hstep.
    repeat case_match; simplify_eq/=; by apply Hsame.
  - destruct (decide (j = i)) as [->|Hne].
    + unfold handle in Hstep. rewrite Hi in Hstep.
      pose proof (lookup_lt_Some _ _ _ Hi) as Hlt.
      unfold holds_buffer in Hw.
      destruct (hpc h) eqn:Hpc; try discriminate Hw.
      * destruct (chain_outcome _); injection Hstep as <-; simpl;
          rewrite list_lookup_insert_eq by done;
          (eexists; split; [done|split; [done|left; done]]).
      * destruct (pipeConnection conn); [|destruct (chan_send _ _)];
          try done; injection Hstep as <-; simpl;
          rewrite list_lookup_insert_eq by done;
          (eexists; split; [done|split; [done|left; done]]).
      * destruct (pipeConnection conn); [|destruct (chan_send _ _)];
          try done; injection Hstep as <-; simpl;
          rewrite list_lookup_insert_eq by done;
          (eexists; split; [done|]);
          rewrite ?hbuf_chain_goes_on, ?holds_chain_goes_on;
          (split; [done|left; done]).
      * injection Hstep as <-. simpl.
        rewrite list_lookup_insert_eq by done.
        eexists. split; [done|]. split; [done|]. left. done.
      * injection Hstep as <-. simpl.
        rewrite list_lookup_insert_eq by done.
        eexists. split; [done|]. split; [done|]. right. done.
    + unfold handle in Hstep.
      repeat case_match; simplify_eq/=;
        rewrite list_lookup_insert_ne by done; exists h; by auto.
  - unfold consumer_Accept, Accept, chan_recv in Hstep.
    repeat case_match; simplify_eq/=; by apply Hsame.
Qed.

Ltac run_handle Hpan Hlt :=
  repeat first
    [ rewrite Hpan
    | rewrite list_lookup_insert_eq by (rewrite ?length_insert; exact Hlt)
    | progress simpl ].

(** [handle] run from its start to its exit, on each of its paths. *)
Lemma handle_run_returns route s i h e :
  panicked s = None → handlers s !! i = Some h → hpc h = HStart →
  hpanic h = None →
  chain_outcome (route (WrapConnection (hconn h) [])) = Returns e →
  0 < l_wg s →
  ∃ s',
    run route s (replicate 6 (AHandle i)) = Some s' ∧
    (hpc <$> handlers s' !! i) = Some HExit ∧
    (herr <$> handlers s' !! i) = Some e ∧
    bufPool s'
    = pool_put
        {| buf_addr := buf_addr (pool_get (bufPool s)).1;
           buf_bytes := chain_leftover (route (WrapConnection (hconn h) [])) |}
        (pool_get (bufPool s)).2.
Proof.
  intros Hpan Hi Hpc Hnone Hout Hwg.
  pose proof (lookup_lt_Some _ _ _ Hi) as Hlt.
  assert ((l_wg s <=? 0) = false) as Hle by (apply Z.leb_gt; lia).
  simpl. unfold step at 1. unfold handle at 1. rewrite Hpan, Hi, Hpc.
  destruct (pool_get (bufPool s)) as [b p].
  unfold step at 1. unfold handle at 1. run_handle Hpan Hlt.
  rewrite Hout.
  unfold step at 1. unfold handle at 1. run_handle Hpan Hlt.
  unfold step at 1. unfold handle at 1. run_handle Hpan Hlt.
  unfold step at 1. unfold handle at 1. run_handle Hpan Hlt.
  rewrite Hle.
  unfold step at 1. unfold handle at 1. run_handle Hpan Hlt.
  rewrite Hnone.
  eexists. split; [done|]. simpl.
  rewrite list_lookup_insert_eq by (rewrite ?length_insert; exact Hlt).
  done.
Qed.

Lemma handle_run_pipes route s i h vs v ret :
  panicked s = None → handlers s !! i = Some h → hpc h = HStart →
  hpanic h = None →
  chain_outcome (route (WrapConnection (hconn h) [])) = Pipes vs →
  pipeConnection
    (with_vars vs
       (after_chain (WrapConnection (hconn h) [])
          (route (WrapConnection (hconn h) []))))
  = PipeSend v ret →
  chan_closed (l_connChan s) = false →
  (length (chan_buf (l_connChan s)) < chan_cap (l_connChan s))%nat →
  0 < l_wg s →
  ∃ s',
    run route s (replicate 7 (AHandle i)) = Some s' ∧
    (hpc <$> handlers s' !! i) = Some HExit ∧
    (herr <$> handlers s' !! i) = Some (Some errHijacked) ∧
    chan_buf (l_connChan s') = chan_buf (l_connChan s) ++ [(i, v)] ∧
    bufPool s'
    = pool_put
        {| buf_addr := buf_addr (pool_get (bufPool s)).1;
           buf_bytes := chain_leftover (route (WrapConnection (hconn h) [])) |}
        (pool_get (bufPool s)).2.
Proof.
  intros Hpan Hi Hpc Hnone Hout Hpipe Hopen Hroom Hwg.
  pose proof (lookup_lt_Some _ _ _ Hi) as Hlt.
  pose proof (pipeConnection_returns _ _ _ Hpipe) as ->.
  assert ((l_wg s <=? 0) = false) as Hle by (apply Z.leb_gt; lia).
  apply Nat.ltb_lt in Hroom.
  simpl. unfold step at 1. unfold handle at 1. rewrite Hpan, Hi, Hpc.
  destruct (pool_get (bufPool s)) as [b p].
  unfold step at 1. unfold handle at 1. run_handle Hpan Hlt.
  rewrite Hout.
  unfold step at 1. unfold handle at 1. run_handle Hpan Hlt.
  rewrite Hpipe. unfold chan_send. run_handle Hpan Hlt.
  rewrite Hopen, Hroom.
  unfold step at 1. unfold handle at 1. run_handle Hpan Hlt.
  unfold step at 1. unfold handle at 1. run_handle Hpan Hlt.
  unfold step at 1. unfold handle at 1. run_handle Hpan Hlt.
  rewrite Hle.
  unfold step at 1. unfold handle at 1. run_handle Hpan Hlt.
  rewrite Hnone.
  eexists. split; [done|]. simpl.
  rewrite list_lookup_insert_eq by (rewrite ?length_insert; exact Hlt).
  done.
Qed.

Lemma handle_run_panics route s i h :
  panicked s = None → handlers s !! i = Some h → hpc h = HStart →
  chain_outcome (route (WrapConnection (hconn h) [])) = Panics →
  0 < l_wg s →
  ∃ s',
    run route s (replicate 5 (AHandle i)) = Some s' ∧
    (hpc <$> handlers s' !! i) = Some HExit ∧
    panicked s' = Some HandlerPanic ∧
    bufPool s'
    = pool_put
        {| buf_addr := buf_addr (pool_get (bufPool s)).1;
           buf_bytes := chain_leftover (route (WrapConnection (hconn h) [])) |}
        (pool_get (bufPool s)).2.
Proof.
  intros Hpan Hi Hpc Hout Hwg.
  pose proof (lookup_lt_Some _ _ _ Hi) as Hlt.
  assert ((l_wg s <=? 0) = false) as Hle by (apply Z.leb_gt; lia).
  simpl. unfold step at 1. unfold handle at 1. rewrite Hpan, Hi, Hpc.
  destruct (pool_get (bufPool s)) as [b p].
  unfold step at 1. unfold handle at 1. run_handle Hpan Hlt.
  rewrite Hout.
  unfold step at 1. unfold handle at 1. run_handle Hpan Hlt.
  unfold step at 1. unfold handle at 1. run_handle Hpan Hlt.
  rewrite Hle.
  unfold step at 1. unfold handle at 1. run_handle Hpan Hlt.
  eexists. split; [done|]. simpl.
  rewrite list_lookup_insert_eq by (rewrite ?length_insert; exact Hlt).
  done.
Qed.

(** * The claims *)

(** ** pipeConnection *)

Lemma pipeConnection_states conn states :
  GetVar conn "tls_connection_states" = Some (VConnectionStates states) ∨
  (GetVar conn "tls_connection_states" = None ∧ states = []) →
  pipeConnection conn
  = match last states with
    | Some p =>
        PipeSend (TLSConn {| tls_Conn := conn; connState := p |})
                 (Some errHijacked)
    | None => PipeSend (PlainConn conn) (Some errHijacked)
    end.
Proof.
  intros H. unfold pipeConnection.
  assert (match GetVar conn "tls_connection_states" with
          | Some (VConnectionStates l) => inl l
          | Some _ => inr TypeAssertion
          | None => inl []
          end = (inl states : list StatePtr + PanicReason)) as ->.
  { destruct H as [-> | [-> ->]]; done. }
  destruct states as [|x states]; [done|].
  change (0 <? length (x :: states))%nat with true. cbv iota.
  rewrite Nat.sub_1_r, <- last_lookup.
  destruct (last (x :: states)) as [p|] eqn:Hlast; [done|].
  by apply last_None in Hlast.
Qed.

Lemma handle_send route s i h conn v :
  panicked s = None → handlers s !! i = Some h → hpc h = HPipe conn →
  pipeConnection conn = PipeSend v (Some errHijacked) →
  chan_closed (l_connChan s) = false →
  (length (chan_buf (l_connChan s)) < chan_cap (l_connChan s))%nat →
  ∃ s', step route s (AHandle i) = Some s' ∧
        chan_buf (l_connChan s') = chan_buf (l_connChan s) ++ [(i, v)] ∧
        handlers s' !! i
        = Some {| hconn := hconn h; hbuf := hbuf h; hcx := hcx h;
                  hpc := HAfter; herr := Some errHijacked;
                  hpanic := hpanic h |}.
Proof.
  intros Hp Hi Hpc Hpipe Hopen Hroom.
  unfold step, handle, chan_send. rewrite Hp, Hi, Hpc, Hpipe, Hopen.
  apply Nat.ltb_lt in Hroom. rewrite Hroom.
  eexists. split; [done|]. simpl. split; [done|].
  apply list_lookup_insert_eq. by eapply lookup_lt_Some.
Qed.

(** C2: when the variable store holds a non-empty sequence of TLS
    connection states under "tls_connection_states", [pipeConnection] sends
    the connection wrapped in a [tlsConnection] whose state is the last
    element of the sequence, so that [ConnectionState] answers the last
    snapshot; when the variable is absent or the sequence is empty it sends
    the connection itself; in both cases it returns [errHijacked], and the
    value is what the channel receives. *)
Theorem pipeConnection_sends_last_state (conn : Connection)
    (states : list StatePtr) :
  GetVar conn "tls_connection_states" = Some (VConnectionStates states) ∨
  (GetVar conn "tls_connection_states" = None ∧ states = []) →
  (∀ p, last states = Some p →
        pipeConnection conn
        = PipeSend (TLSConn {| tls_Conn := conn; connState := p |})
                   (Some errHijacked) ∧
        ∀ st, p = Some st →
              ConnectionState {| tls_Conn := conn; connState := p |}
              = inl st) ∧
  (states = [] →
   pipeConnection conn = PipeSend (PlainConn conn) (Some errHijacked)) ∧
  (∃ v, pipeConnection conn = PipeSend v (Some errHijacked) ∧
        ∀ route s i h,
          panicked s = None → handlers s !! i = Some h →
          hpc h = HPipe conn →
          chan_closed (l_connChan s) = false →
          (length (chan_buf (l_connChan s)) < chan_cap (l_connChan s))%nat →
          ∃ s', step route s (AHandle i) = Some s' ∧
                chan_buf (l_connChan s')
                = chan_buf (l_connChan s) ++ [(i, v)] ∧
                (herr <$> handlers s' !! i) = Some (Some errHijacked)).
Proof.
  intros H. pose proof (pipeConnection_states conn states H) as Hpipe.
  split; [|split].
  - intros p Hp. rewrite Hp in Hpipe. split; [done|].
    intros st ->. done.
  - intros ->. done.
  - destruct (last states) as [p|];
      (eexists; split; [exact Hpipe|]);
      intros route s i h Hpan Hi Hpc Hopen Hroom;
      destruct (handle_send route s i h conn _ Hpan Hi Hpc Hpipe Hopen Hroom)
        as (s' & Hstep & Hbuf & Hh);
      exists s'; rewrite Hh; done.
Qed.

Lemma pipeConnection_sends_last_state_witness :
  let conn := with_vars Scenario.two_states
                (WrapConnection (Scenario.tcp 5) []) in
  pipeConnection conn
  = PipeSend (TLSConn {| tls_Conn := conn;
                         connState := Some Scenario.tls13 |})
             (Some errHijacked) ∧
  ConnectionState {| tls_Conn := conn; connState := Some Scenario.tls13 |}
  = inl Scenario.tls13.
Proof.
  intros conn.
  destruct (pipeConnection_sends_last_state conn
              [Some Scenario.tls12; Some Scenario.tls13])
    as (Hlast & _ & _).
  - left. vm_compute. reflexivity.
  - destruct (Hlast (Some Scenario.tls13)) as [Hsend Hstate].
    + reflexivity.
    + split; [exact Hsend|]. apply Hstate. reflexivity.
Defined.

(** C9: a non-nil value of another type under "tls_connection_states"
    makes [pipeConnection] panic on its type assertion: nothing is sent, no
    error is returned, the goroutine starts unwinding. *)
Theorem pipeConnection_type_assertion_panics (conn : Connection) (v : Value) :
  GetVar conn "tls_connection_states" = Some v →
  (∀ states, v ≠ VConnectionStates states) →
  pipeConnection conn = PipePanic TypeAssertion ∧
  ∀ route s i h,
    panicked s = None → handlers s !! i = Some h → hpc h = HPipe conn →
    step route s (AHandle i)
    = Some (set_handler i (panicking TypeAssertion h) s).
Proof.
  intros Hv Hother.
  assert (pipeConnection conn = PipePanic TypeAssertion) as Hpipe.
  { unfold pipeConnection. rewrite Hv.
    destruct v as [states| | |]; try done. by destruct (Hother states). }
  split; [done|].
  intros route s i h Hpan Hi Hpc.
  unfold step, handle. by rewrite Hpan, Hi, Hpc, Hpipe.
Qed.

Lemma pipeConnection_type_assertion_panics_witness :
  pipeConnection (with_vars Scenario.wrong_type
                    (WrapConnection (Scenario.tcp 6) []))
  = PipePanic TypeAssertion.
Proof.
  apply (pipeConnection_type_assertion_panics _ (VString "tls1.3")).
  - vm_compute. reflexivity.
  - intros states. discriminate.
Defined.

(** ** Accept *)

(** C4: a call of [Accept] returns the value at the head of the channel
    with a nil error; on a closed and empty channel it returns a nil
    connection with the error stored in [l.err] (nil when nothing was
    stored); on an open and empty channel it blocks. *)
Theorem Accept_returns_chan_or_terminal (connChan : Chan) (err : error) :
  (∀ conn rest,
     chan_buf connChan = conn :: rest →
     Accept connChan err
     = Some ({| chan_buf := rest; chan_cap := chan_cap connChan;
                chan_closed := chan_closed connChan |}, (Some conn, None))) ∧
  (chan_buf connChan = [] → chan_closed connChan = true →
   Accept connChan err = Some (connChan, (None, err))) ∧
  (chan_buf connChan = [] → chan_closed connChan = false →
   Accept connChan err = None) ∧
  (∀ route s,
     panicked s = None → l_connChan s = connChan → l_err s = err →
     chan_buf connChan = [] → chan_closed connChan = true →
     step route s AAccept = Some (add_terminal [err] s)).
Proof.
  unfold Accept, chan_recv. repeat split.
  - intros conn rest ->. done.
  - intros -> ->. done.
  - intros -> ->. done.
  - intros route s Hpan <- <- Hbuf Hclosed.
    unfold step, consumer_Accept, Accept, chan_recv.
    by rewrite Hpan, Hbuf, Hclosed.
Qed.

Lemma Accept_returns_chan_or_terminal_witness :
  Accept {| chan_buf := []; chan_cap := 4; chan_closed := true |}
         (Some Scenario.ErrClosed)
  = Some ({| chan_buf := []; chan_cap := 4; chan_closed := true |},
          (None, Some Scenario.ErrClosed)).
Proof.
  destruct (Accept_returns_chan_or_terminal
              {| chan_buf := []; chan_cap := 4; chan_closed := true |}
              (Some Scenario.ErrClosed)) as (_ & Hclosed & _).
  apply Hclosed; reflexivity.
Defined.

(** ** setKeepAliveWorkarround *)

Lemma keepalive_calls conn call :
  In call (setKeepAliveWorkarround conn).1 →
  match call with
  | CallSetKeepAlive _ _ | CallSetKeepAlivePeriod _ _ => False
  | _ => True
  end.
Proof.
  unfold setKeepAliveWorkarround.
  destruct (conn_kind conn); simpl; try done.
  destruct (syscallConn_err _); simpl; [intros [<-|[]]; done|].
  destruct (control_err _); simpl; [intros [<-|[<-|[]]]; done|].
  destruct (wsaioctl_err _); simpl.
  - intros [<-|[<-|[<-|[<-|[]]]]]; done.
  - intros [<-|[<-|[<-|[]]]]; done.
Qed.

(** C10: for a connection that has the two keepalive methods and is not a
    [*net.TCPConn], [setKeepAliveWorkarround] panics on its type assertion
    instead of returning an error; the panic is raised in the accept loop
    and ends the process, no handler goroutine is spawned for the
    connection; and for no connection at all does the function call
    [SetKeepAlive] or [SetKeepAlivePeriod]. *)
Theorem setKeepAliveWorkarround_assumes_TCPConn (conn : NetConn) :
  implements_tcpConnection conn = true →
  conn_kind conn ≠ KTCPConn →
  setKeepAliveWorkarround conn = ([], KAPanic TypeAssertion) ∧
  (∀ route s rest,
     panicked s = None → loop_pc s = LAccept →
     raw s = (conn, None) :: rest →
     ∃ s', step route s ALoop = Some s' ∧
           panicked s' = Some TypeAssertion ∧
           handlers s' = handlers s ∧ l_wg s' = l_wg s ∧
           ∀ a, step route s' a = None) ∧
  (∀ c call,
     In call (setKeepAliveWorkarround c).1 →
     match call with
     | CallSetKeepAlive _ _ | CallSetKeepAlivePeriod _ _ => False
     | _ => True
     end).
Proof.
  intros Himpl Hkind.
  assert (setKeepAliveWorkarround conn = ([], KAPanic TypeAssertion)) as Hka.
  { unfold setKeepAliveWorkarround. by destruct (conn_kind conn). }
  split; [done|]. split; [|apply keepalive_calls].
  intros route s rest Hpan Hpc Hraw.
  unfold step, loop, loop_keepalive.
  rewrite Hpan, Hpc, Hraw. simpl. rewrite Himpl, Hka.
  eexists. split; [done|]. simpl. repeat split; done.
Qed.

Lemma setKeepAliveWorkarround_assumes_TCPConn_witness :
  implements_tcpConnection Scenario.embedded_tcp = true ∧
  setKeepAliveWorkarround Scenario.embedded_tcp
  = ([], KAPanic TypeAssertion) ∧
  ∃ s', step Scenario.route
          (Scenario.about_to_accept Scenario.embedded_tcp None) ALoop
        = Some s' ∧ panicked s' = Some TypeAssertion.
Proof.
  destruct (setKeepAliveWorkarround_assumes_TCPConn Scenario.embedded_tcp)
    as (Hka & Hloop & _).
  - reflexivity.
  - discriminate.
  - split; [reflexivity|]. split; [exact Hka|].
    destruct (Hloop Scenario.route
                (Scenario.about_to_accept Scenario.embedded_tcp None) [])
      as (s' & Hstep & Hp & _); [reflexivity..|].
    exists s'. split; [exact Hstep|exact Hp].
Defined.

(** ** Keepalive in the accept loop *)

(** C8 as stated fails: on a [*net.TCPConn] whose ioctl fails the policy is
    not in effect and no warning is logged (the failure is printed by
    [fmt.Println] inside the callback and [setKeepAliveWorkarround] returns
    nil). *)
Lemma keepalive_applied_or_warned_fails :
  ¬ keepalive_applied_or_warned Scenario.tcp_ioctl_fails.
Proof.
  intros H.
  destruct (H eq_refl (Scenario.about_to_accept Scenario.tcp_ioctl_fails None)
              [] eq_refl eq_refl eq_refl) as (s' & Hstep & _ & [Happ|Hwarn]).
  - destruct Happ as [_ Hok]. discriminate Hok.
  - vm_compute in Hstep. injection Hstep as <-.
    destruct Hwarn as [e He]. simpl in He. discriminate He.
Qed.

(** C8, amended: for an accepted [*net.TCPConn] the accept loop calls
    [SyscallConn], [Control] and the keepalive ioctl with OnOff = 1,
    Time = 120000 ms (120 s) and Interval = 15000 ms (15 s), in this order
    and as far as each succeeds; an error of [SyscallConn] or [Control] is
    logged at warning level, an error of the ioctl is printed and not
    logged; in every case the loop does not panic and goes on to add to the
    wait-group and to spawn the handler goroutine of the connection. *)
Theorem keepalive_policy_tcp (route : Handler) (s : State) (conn : NetConn)
    (rest : list (NetConn * error)) :
  conn_kind conn = KTCPConn →
  panicked s = None → loop_pc s = LAccept → raw s = (conn, None) :: rest →
  ∃ s',
    step route s ALoop = Some s' ∧
    loop_pc s' = LAdd conn ∧ panicked s' = None ∧
    (let c := conn_id conn in
     let ioctl :=
       CallWSAIoctl c SIO_KEEPALIVE_VALS
         {| OnOff := 1; Time := 120 * 1000; Interval := 15 * 1000 |} in
     let warn e :=
       log_error WarnLevel "unable to set keepalive for new connection:"
         (Some e) in
     match syscallConn_err (conn_socket conn),
           control_err (conn_socket conn),
           wsaioctl_err (conn_socket conn) with
     | Some e, _, _ =>
         syscalls s' = syscalls s ++ [CallSyscallConn c] ∧
         log s' = log s ++ [warn e]
     | None, Some e, _ =>
         syscalls s' = syscalls s ++ [CallSyscallConn c; CallControl c] ∧
         log s' = log s ++ [warn e]
     | None, None, Some e =>
         syscalls s'
         = syscalls s ++ [CallSyscallConn c; CallControl c; ioctl;
                          CallPrintln "WSAIoctl error:" e] ∧
         log s' = log s
     | None, None, None =>
         syscalls s' = syscalls s ++ [CallSyscallConn c; CallControl c; ioctl] ∧
         log s' = log s
     end) ∧
    ∃ s'', run route s' [ALoop; ALoop] = Some s'' ∧
           l_wg s'' = l_wg s + 1 ∧
           handlers s'' = handlers s ++ [spawn_handle conn].
Proof.
  intros Hkind Hpan Hpc Hraw.
  unfold step, loop, loop_keepalive, implements_tcpConnection,
    setKeepAliveWorkarround.
  rewrite Hpan, Hpc, Hraw, Hkind. simpl.
  destruct (syscallConn_err (conn_socket conn)) as [e1|];
    [|destruct (control_err (conn_socket conn)) as [e2|];
      [|destruct (wsaioctl_err (conn_socket conn)) as [e3|]]];
    (eexists; split; [reflexivity|]; simpl;
     split; [done|]; split; [done|]; split; [done|];
     unfold step, loop; simpl; repeat (rewrite Hpan; simpl);
     eexists; split; [reflexivity|]; done).
Qed.

Lemma keepalive_policy_tcp_witness :
  ∃ s',
    step Scenario.route (Scenario.about_to_accept (Scenario.tcp 1) None) ALoop
    = Some s' ∧
    loop_pc s' = LAdd (Scenario.tcp 1) ∧
    syscalls s'
    = [CallSyscallConn 1; CallControl 1;
       CallWSAIoctl 1 SIO_KEEPALIVE_VALS
         {| OnOff := 1; Time := 120000; Interval := 15000 |}].
Proof.
  destruct (keepalive_policy_tcp Scenario.route
              (Scenario.about_to_accept (Scenario.tcp 1) None)
              (Scenario.tcp 1) [])
    as (s' & Hstep & Hpc & _ & Hcalls & _); [reflexivity..|].
  exists s'. split; [exact Hstep|]. split; [exact Hpc|].
  simpl in Hcalls. exact (proj1 Hcalls).
Defined.

(** ** handle *)

Lemma handle_log_cases cx err :
  ∃ stats,
    log_level stats = DebugLevel ∧
    handle_log cx err
    = if logs_error err
      then [log_error ErrorLevel "handling connection" err; stats]
      else [stats].
Proof.
  unfold handle_log. eexists. split; [|by destruct (logs_error err)]. done.
Qed.

(** C1: in every execution, a handler goroutine that has exited has called
    [conn.Close()] once if its [err] is not the very object [errHijacked],
    and not at all if it is; [err] is the error returned by the handler
    chain ([nil] when the chain panicked).  After the chain returns, the
    error is logged when it is non-nil and not the marker, and the step
    that logs changes neither [err] nor the record of closed connections;
    an error that is non-nil and not the marker closes the connection as a
    nil error does. *)
Theorem handle_closes_unless_hijacked (route : Handler)
    (l : list (NetConn * error)) (capacity : nat) (pool : list (list Z))
    (s : State) (i : nat) (h : HandleState) :
  reachable route (WrapListener l capacity pool) s →
  handlers s !! i = Some h →
  hpc h = HExit →
  (cnt i (closedByHandler s)
   = if is_hijacked (herr h) then 0%nat else 1%nat) ∧
  (closed_by_handler s i ↔ is_hijacked (herr h) = false) ∧
  match hpanic h with
  | None => chain_returned route h
  | Some _ => herr h = None
  end ∧
  (∀ s0 j g,
     panicked s0 = None → handlers s0 !! j = Some g → hpc g = HAfter →
     ∃ s1 stats,
       step route s0 (AHandle j) = Some s1 ∧
       log_level stats = DebugLevel ∧
       log s1
       = log s0
         ++ (if logs_error (herr g)
             then [log_error ErrorLevel "handling connection" (herr g); stats]
             else [stats]) ∧
       closedByHandler s1 = closedByHandler s0 ∧
       (herr <$> handlers s1 !! j) = Some (herr g)) ∧
  (∀ e, logs_error e = true ↔ e ≠ None ∧ is_hijacked e = false) ∧
  (∀ e, is_hijacked e = false → closes_conn e = closes_conn None).
Proof.
  intros Hreach Hi Hpc. apply reachable_Inv in Hreach as HI.
  pose proof (inv_closes _ _ HI i h Hi) as Hcl.
  pose proof (inv_local _ _ HI i h Hi) as Hloc.
  unfold exited, closes_conn in Hcl. unfold local_ok in Hloc.
  rewrite Hpc in Hcl, Hloc. simpl in Hcl.
  split; [|split; [|split; [|split; [|split]]]].
  - rewrite Hcl. by destruct (is_hijacked (herr h)).
  - unfold closed_by_handler. rewrite Hcl.
    destruct (is_hijacked (herr h)); simpl; split; intros; (done || lia).
  - destruct (hpanic h); tauto.
  - intros s0 j g Hpan Hj Hg.
    destruct (handle_log_cases (hcx g) (herr g)) as (stats & Hlv & Hlog).
    unfold step, handle. rewrite Hpan, Hj, Hg.
    eexists. exists stats. split; [done|]. simpl. rewrite Hlog.
    split; [done|]. split; [done|]. split; [done|].
    rewrite list_lookup_insert_eq by (by eapply lookup_lt_Some). done.
  - intros [e|]; unfold logs_error.
    + destruct (is_hijacked (Some e)); simpl; intuition congruence.
    + intuition congruence.
  - intros e He. unfold closes_conn. by rewrite He.
Qed.

Lemma handle_closes_unless_hijacked_witness :
  reachable Scenario.route Scenario.three_conns Scenario.three_conns_end ∧
  cnt 0 (closedByHandler Scenario.three_conns_end) = 1%nat ∧
  cnt 1 (closedByHandler Scenario.three_conns_end) = 0%nat ∧
  cnt 2 (closedByHandler Scenario.three_conns_end) = 1%nat ∧
  err_text Scenario.lookalike = err_text errHijacked.
Proof.
  assert (reachable Scenario.route Scenario.three_conns
            Scenario.three_conns_end) as Hreach.
  { apply (run_reachable _ _ Scenario.three_conns_schedule
             Scenario.three_conns); [apply reachable_init|].
    vm_compute. reflexivity. }
  split; [exact Hreach|]. split; [|split; [|split; [|reflexivity]]].
  - destruct (handle_closes_unless_hijacked Scenario.route _ _ _
                Scenario.three_conns_end 0
                (default (spawn_handle (Scenario.tcp 0))
                   (handlers Scenario.three_conns_end !! 0%nat)) Hreach)
      as (Hcnt & _); [vm_compute; reflexivity..|].
    exact Hcnt.
  - destruct (handle_closes_unless_hijacked Scenario.route _ _ _
                Scenario.three_conns_end 1
                (default (spawn_handle (Scenario.tcp 0))
                   (handlers Scenario.three_conns_end !! 1%nat)) Hreach)
      as (Hcnt & _); [vm_compute; reflexivity..|].
    exact Hcnt.
  - destruct (handle_closes_unless_hijacked Scenario.route _ _ _
                Scenario.three_conns_end 2
                (default (spawn_handle (Scenario.tcp 0))
                   (handlers Scenario.three_conns_end !! 2%nat)) Hreach)
      as (Hcnt & _); [vm_compute; reflexivity..|].
    exact Hcnt.
Defined.

(** ** Closing the channel *)

(** C3: in every execution, once [connChan] is closed the accept loop has
    left its accept phase, for good (the raw listener is never asked
    again and no handler goroutine is spawned any more), the wait-group is
    at zero and every handler goroutine is past its [wg.Done()]; the
    wait-group always counts the handler goroutines that have not run
    [wg.Done()], the one whose spawn is pending included; no goroutine is
    ever inside [pipeConnection] while the channel is closed, and no send
    on the closed channel ever happens. *)
Theorem connChan_closed_after_handlers (route : Handler)
    (l : list (NetConn * error)) (capacity : nat) (pool : list (list Z))
    (s : State) :
  reachable route (WrapListener l capacity pool) s →
  (chan_closed (l_connChan s) = true →
   stopped (loop_pc s) = true ∧ l_wg s = 0 ∧
   (∀ i h, handlers s !! i = Some h → hpc h = HClose ∨ hpc h = HExit) ∧
   (∀ sched s', run route s sched = Some s' →
                stopped (loop_pc s') = true ∧ raw s' = raw s ∧
                length (handlers s') = length (handlers s))) ∧
  l_wg s = Z.of_nat (total in_flight (handlers s)) + pending (loop_pc s) ∧
  (∀ i h conn, handlers s !! i = Some h → hpc h = HPipe conn →
               chan_closed (l_connChan s) = false) ∧
  panicked s ≠ Some SendOnClosedChannel ∧
  (∀ i h, handlers s !! i = Some h → hpanic h ≠ Some SendOnClosedChannel).
Proof.
  intros Hreach. apply reachable_Inv in Hreach as HI.
  split; [|split; [|split; [|split]]].
  - intros Hclosed.
    destruct (closed_no_in_flight _ _ HI Hclosed) as (Hst & Hwg & Htot).
    split; [done|]. split; [done|]. split.
    + intros i h Hi. pose proof (total_zero_lookup _ _ _ _ Htot Hi) as Hw.
      unfold in_flight in Hw. destruct (hpc h); try discriminate Hw; auto.
    + intros sched s' Hrun.
      destruct (stopped_run _ _ _ _ Hrun Hst) as (? & ? & _ & ?). done.
  - apply (inv_wg _ _ HI).
  - intros i h conn Hi Hpc.
    destruct (chan_closed (l_connChan s)) eqn:Hclosed; [|done].
    destruct (closed_no_in_flight _ _ HI Hclosed) as (_ & _ & Htot).
    pose proof (total_zero_lookup _ _ _ _ Htot Hi) as Hw.
    unfold in_flight in Hw. rewrite Hpc in Hw. discriminate Hw.
  - apply (inv_panicked _ _ HI).
  - intros i h Hi. pose proof (inv_local _ _ HI i h Hi) as Hloc.
    unfold local_ok in Hloc.
    destruct (hpc h); destruct (hpanic h) as [r|] eqn:Hp;
      try done; try (destruct Hloc as [? ?]; congruence);
      try (destruct Hloc as (? & ? & ?); congruence).
Qed.

Lemma connChan_closed_after_handlers_witness :
  chan_closed (l_connChan Scenario.shutdown_end) = true ∧
  l_wg Scenario.shutdown_end = 0 ∧
  stopped (loop_pc Scenario.shutdown_end) = true.
Proof.
  assert (reachable Scenario.pipe_all Scenario.shutdown
            Scenario.shutdown_end) as Hreach.
  { apply (run_reachable _ _ Scenario.shutdown_schedule Scenario.shutdown);
      [apply reachable_init|]. vm_compute. reflexivity. }
  destruct (connChan_closed_after_handlers _ _ _ _ _ Hreach) as (Hclosed & _).
  assert (chan_closed (l_connChan Scenario.shutdown_end) = true) as Hc
    by (vm_compute; reflexivity).
  destruct (Hclosed Hc) as (Hst & Hwg & _).
  split; [exact Hc|]. split; [exact Hwg|exact Hst].
Defined.

(** ** The accept loop *)

(** C6: when the raw listener returns an error on which [Temporary()] is
    true, the loop logs it at error level and is back at the accept call,
    with nothing else changed; when it returns any other non-nil error the
    loop stores it in [l.err] and leaves the accept phase: whatever runs
    afterwards, the raw listener is not asked again, [l.err] keeps the
    error and no handler goroutine is spawned. *)
Theorem loop_accept_error_classification (route : Handler) (s : State)
    (conn : NetConn) (e : errorValue) (rest : list (NetConn * error)) :
  panicked s = None → loop_pc s = LAccept → raw s = (conn, Some e) :: rest →
  ∃ s',
    step route s ALoop = Some s' ∧ raw s' = rest ∧
    handlers s' = handlers s ∧ l_wg s' = l_wg s ∧ panicked s' = None ∧
    if is_temporary (Some e) then
      loop_pc s' = LAccept ∧ l_err s' = l_err s ∧
      log s'
      = log s ++ [log_error ErrorLevel "temporary error accepting connection"
                    (Some e)]
    else
      loop_pc s' = LBreak ∧ l_err s' = Some e ∧ log s' = log s ∧
      ∀ sched s'',
        run route s' sched = Some s'' →
        stopped (loop_pc s'') = true ∧ raw s'' = rest ∧
        l_err s'' = Some e ∧
        length (handlers s'') = length (handlers s).
Proof.
  intros Hpan Hpc Hraw. unfold step, loop. rewrite Hpan, Hpc, Hraw.
  destruct (is_temporary (Some e)) eqn:Htmp.
  - eexists. split; [done|]. simpl. rewrite Hpc. done.
  - eexists. split; [done|]. simpl. repeat split; try done.
    all: edestruct stopped_run as (H1 & H2 & H3 & H4); [eassumption|done|];
      simpl in *; done.
Qed.

Lemma loop_accept_error_classification_witness :
  (∃ s',
     step Scenario.route
       (Scenario.about_to_accept (Scenario.tcp 0) (Some Scenario.ErrClosed))
       ALoop = Some s' ∧
     loop_pc s' = LBreak ∧ l_err s' = Some Scenario.ErrClosed) ∧
  (∃ s',
     step Scenario.route
       (Scenario.about_to_accept (Scenario.tcp 0) (Some Scenario.ErrTimeout))
       ALoop = Some s' ∧
     loop_pc s' = LAccept ∧ l_err s' = None).
Proof.
  split.
  - destruct (loop_accept_error_classification Scenario.route
                (Scenario.about_to_accept (Scenario.tcp 0)
                   (Some Scenario.ErrClosed))
                (Scenario.tcp 0) Scenario.ErrClosed [])
      as (s' & Hstep & _ & _ & _ & _ & Hcase); [reflexivity..|].
    exists s'. split; [exact Hstep|].
    simpl in Hcase. destruct Hcase as (Hpc & Herr & _).
    split; [exact Hpc|exact Herr].
  - destruct (loop_accept_error_classification Scenario.route
                (Scenario.about_to_accept (Scenario.tcp 0)
                   (Some Scenario.ErrTimeout))
                (Scenario.tcp 0) Scenario.ErrTimeout [])
      as (s' & Hstep & _ & _ & _ & _ & Hcase); [reflexivity..|].
    exists s'. split; [exact Hstep|].
    simpl in Hcase. destruct Hcase as (Hpc & Herr & _).
    split; [exact Hpc|exact Herr].
Defined.

(** ** The buffer pool *)

(** C7: a handler goroutine gets its buffer from the pool as its first
    step and calls the chain with that buffer emptied, whatever the pool
    handed out; while it holds the buffer no step of any goroutine changes
    which buffer it is, and the only step by which it stops holding it is
    its deferred [bufPool.Put(buf)], which puts that very buffer back.  Run
    from its start, the goroutine exits with the buffer back in the pool
    when the chain returns an error or nil, when it pipes the connection
    and returns the hijacked marker, and when it panics.  In every
    execution the number of buffers checked out is the number of
    goroutines between their [Get] and their [Put], none of them exited,
    so it is zero when all have exited; and the buffers in the pool and
    those held by goroutines are the buffers allocated so far, each once:
    none is lost and none is in two places. *)
Theorem bufPool_reset_and_returned (route : Handler)
    (l : list (NetConn * error)) (capacity : nat) (pool : list (list Z))
    (s : State) :
  reachable route (WrapListener l capacity pool) s →
  pool_out (bufPool s) = Z.of_nat (total holds_buffer (handlers s)) ∧
  (∀ i h, handlers s !! i = Some h → hpc h = HHandle → buf (hcx h) = []) ∧
  (∀ i h, handlers s !! i = Some h → hpc h = HExit → holds_buffer h = 0%nat) ∧
  ((∀ i h, handlers s !! i = Some h → hpc h = HExit) →
   pool_out (bufPool s) = 0) ∧
  buffers s ≡ₚ seq 0 (pool_next (bufPool s)) ∧
  (∀ i h,
     panicked s = None → handlers s !! i = Some h → hpc h = HStart →
     ∃ s1 h1,
       step route s (AHandle i) = Some s1 ∧ handlers s1 !! i = Some h1 ∧
       bufPool s1 = (pool_get (bufPool s)).2 ∧
       hbuf h1 = buf_addr (pool_get (bufPool s)).1 ∧
       hcx h1 = WrapConnection (hconn h) [] ∧ hpc h1 = HHandle) ∧
  (∀ a s1 i h,
     step route s a = Some s1 → handlers s !! i = Some h →
     holds_buffer h = 1%nat →
     ∃ h1, handlers s1 !! i = Some h1 ∧ hbuf h1 = hbuf h ∧
           (holds_buffer h1 = 1%nat ∨
            a = AHandle i ∧ hpc h = HPut ∧
            bufPool s1
            = pool_put {| buf_addr := hbuf h; buf_bytes := buf (hcx h) |}
                (bufPool s))) ∧
  (∀ i h,
     panicked s = None → handlers s !! i = Some h → hpc h = HPut →
     ∃ s1,
       step route s (AHandle i) = Some s1 ∧
       bufPool s1
       = pool_put {| buf_addr := hbuf h; buf_bytes := buf (hcx h) |}
           (bufPool s) ∧
       (hpc <$> handlers s1 !! i) = Some HWgDone) ∧
  (∀ i h,
     panicked s = None → handlers s !! i = Some h → hpc h = HStart →
     let cx := WrapConnection (hconn h) [] in
     let back :=
       pool_put {| buf_addr := buf_addr (pool_get (bufPool s)).1;
                   buf_bytes := chain_leftover (route cx) |}
         (pool_get (bufPool s)).2 in
     (∀ e, chain_outcome (route cx) = Returns e →
           ∃ s', run route s (replicate 6 (AHandle i)) = Some s' ∧
                 (hpc <$> handlers s' !! i) = Some HExit ∧
                 (herr <$> handlers s' !! i) = Some e ∧
                 bufPool s' = back) ∧
     (∀ vs v ret,
        chain_outcome (route cx) = Pipes vs →
        pipeConnection (with_vars vs (after_chain cx (route cx)))
        = PipeSend v ret →
        chan_closed (l_connChan s) = false →
        (length (chan_buf (l_connChan s)) < chan_cap (l_connChan s))%nat →
        ∃ s', run route s (replicate 7 (AHandle i)) = Some s' ∧
              (hpc <$> handlers s' !! i) = Some HExit ∧
              (herr <$> handlers s' !! i) = Some (Some errHijacked) ∧
              chan_buf (l_connChan s') = chan_buf (l_connChan s) ++ [(i, v)] ∧
              bufPool s' = back) ∧
     (chain_outcome (route cx) = Panics →
      ∃ s', run route s (replicate 5 (AHandle i)) = Some s' ∧
            (hpc <$> handlers s' !! i) = Some HExit ∧
            panicked s' = Some HandlerPanic ∧
            bufPool s' = back)).
Proof.
  intros Hreach. apply reachable_Inv in Hreach as HI.
  pose proof (inv_pool _ _ HI) as Hpool.
  split; [done|]. repeat apply conj.
  - intros i h Hi Hpc. pose proof (inv_local _ _ HI i h Hi) as Hloc.
    unfold local_ok in Hloc. rewrite Hpc in Hloc.
    destruct Hloc as (_ & _ & ->). done.
  - intros i h _ Hpc. unfold holds_buffer. by rewrite Hpc.
  - intros Hall. rewrite Hpool, total_zero_all; [done|].
    intros i h Hi. unfold holds_buffer. by rewrite (Hall i h Hi).
  - by eapply reachable_buffers.
  - intros i h. apply handle_get.
  - intros a s1 i h. apply handle_keeps_buffer.
  - intros i h. apply handle_put.
  - intros i h Hpan Hi Hpc cx back.
    pose proof (inv_local _ _ HI i h Hi) as Hloc.
    unfold local_ok in Hloc. rewrite Hpc in Hloc. destruct Hloc as [_ Hnone].
    assert (0 < l_wg s) as Hwg.
    { eapply in_flight_wg; [done..|]. unfold in_flight. by rewrite Hpc. }
    split; [|split].
    + intros e Hout. by eapply handle_run_returns.
    + intros vs v ret Hout Hpipe Hopen Hroom. by eapply handle_run_pipes.
    + intros Hout. by eapply handle_run_panics.
Qed.

Lemma bufPool_reset_and_returned_witness :
  (∃ s1 h1,
     step Scenario.route Cases.dirty_pool (AHandle 0) = Some s1 ∧
     handlers s1 !! 0%nat = Some h1 ∧
     hbuf h1 = 0%nat ∧ buf (hcx h1) = [] ∧ pool_out (bufPool s1) = 1) ∧
  (∃ s',
     run Scenario.route Cases.dirty_pool (replicate 6 (AHandle 0)) = Some s' ∧
     bufPool s'
     = {| pool_free := [ {| buf_addr := 0;
                            buf_bytes := [104; 101; 108; 108; 111] |} ];
          pool_out := 0; pool_next := 1 |}).
Proof.
  assert (reachable Scenario.route Scenario.three_conns Cases.dirty_pool)
    as Hreach.
  { apply (run_reachable _ _ Scenario.accept_and_spawn Scenario.three_conns);
      [apply reachable_init|]. vm_compute. reflexivity. }
  destruct (bufPool_reset_and_returned _ _ _ _ _ Hreach)
    as (_ & _ & _ & _ & _ & Hget & _ & _ & Hrun).
  split.
  - destruct (Hget 0%nat (spawn_handle (Scenario.tcp 1)))
      as (s1 & h1 & Hstep & Hh1 & Hpool & Hbuf & Hcx & _);
      [vm_compute; reflexivity..|].
    exists s1, h1. split; [exact Hstep|]. split; [exact Hh1|].
    split; [exact Hbuf|]. split; [by rewrite Hcx|]. by rewrite Hpool.
  - destruct (Hrun 0%nat (spawn_handle (Scenario.tcp 1)))
      as (Hret & _ & _); [vm_compute; reflexivity..|].
    destruct (Hret None) as (s' & Hrun' & _ & _ & Hback);
      [vm_compute; reflexivity|].
    exists s'. split; [exact Hrun'|]. exact Hback.
Defined.

(** ** The fate of an accepted connection *)

(** C5 as stated fails: a connection is piped, the raw listener fails
    before the consumer calls [Accept], and the loop of lines 117-119
    receives the connection from the channel and closes it.  It is neither
    closed by its handler goroutine nor delivered to the consumer. *)
Lemma closed_xor_delivered_fails :
  ¬ closed_xor_delivered Scenario.pipe_all Scenario.shutdown.
Proof.
  intros H.
  assert (reachable Scenario.pipe_all Scenario.shutdown
            Scenario.shutdown_end) as Hreach.
  { apply (run_reachable _ _ Scenario.shutdown_schedule Scenario.shutdown);
      [apply reachable_init|]. vm_compute. reflexivity. }
  assert (finished Scenario.shutdown_end) as Hfin.
  { split; [vm_compute; reflexivity|]. split; [vm_compute; reflexivity|].
    intros [|i] h; vm_compute; intros [= <-]; reflexivity. }
  destruct (H Scenario.shutdown_end 0%nat
              (default (spawn_handle (Scenario.tcp 0))
                 (handlers Scenario.shutdown_end !! 0%nat)) Hreach Hfin)
    as [[Hc|Hd] _].
  - vm_compute. reflexivity.
  - vm_compute in Hc. lia.
  - vm_compute in Hd. lia.
Qed.

(** C5, amended: when the chain calls [pipeConnection] at most once,
    returns what the call returns when it makes it, and otherwise does not
    return the hijacked marker, then in every execution, for a handler
    goroutine that has exited, exactly one of these holds: the goroutine
    closed its connection; the connection is in the hand-off channel;
    [Accept] returned it to the consumer; the loop of lines 117-119
    received it from the channel and closed it.  Once [loop] has returned
    the channel is empty, which leaves exactly one of the other three.  The
    goroutine closed the connection exactly when its [err] is not the
    marker. *)
Theorem accepted_conn_closed_or_sent (route : Handler)
    (l : list (NetConn * error)) (capacity : nat) (pool : list (list Z))
    (s : State) (i : nat) (h : HandleState) :
  pipes_at_most_once route →
  marker_only_from_pipe route →
  reachable route (WrapListener l capacity pool) s →
  handlers s !! i = Some h →
  hpc h = HExit →
  (cnt i (closedByHandler s) + cnt i (tags (chan_buf (l_connChan s)))
   + cnt i (tags (delivered s)) + cnt i (tags (drained s)) = 1)%nat ∧
  (loop_pc s = LDone → cnt i (tags (chan_buf (l_connChan s))) = 0%nat) ∧
  (cnt i (closedByHandler s) = 1%nat ↔ is_hijacked (herr h) = false).
Proof.
  intros Honce Hwb Hreach Hi Hpc. apply reachable_Inv in Hreach as HI.
  pose proof (inv_closes _ _ HI i h Hi) as Hcl.
  destruct (reachable_sent _ _ _ _ _ Honce Hreach i h Hi) as [_ Hse].
  pose proof (inv_local _ _ HI i h Hi) as Hloc.
  unfold exited, closes_conn in Hcl. unfold has_sent in Hse.
  unfold local_ok, chain_returned in Hloc.
  rewrite final_outcome_once in Hloc by apply Honce.
  rewrite Hpc in Hcl, Hse, Hloc. simpl in Hcl.
  assert (cnt i (tags (chan_buf (l_connChan s)))
          + cnt i (tags (delivered s)) + cnt i (tags (drained s))
          = if is_hijacked (herr h) then 1 else 0)%nat as Hsum.
  { rewrite Hse. destruct (hpanic h) as [r|].
    - destruct Hloc as [-> _]. done.
    - destruct (chain_outcome (route (WrapConnection (hconn h) [])))
        as [e|vs| |vs next] eqn:Hout; [| |done|done].
      + rewrite Hloc. by rewrite (Hwb _ _ Hout).
      + by rewrite Hloc. }
  split; [|split].
  - rewrite Hcl. destruct (is_hijacked (herr h)); simpl in *; lia.
  - intros Hdone. destruct (inv_done _ _ HI Hdone) as [-> _]. done.
  - rewrite Hcl. destruct (is_hijacked (herr h)); simpl; split; intros; (done || lia).
Qed.

Lemma accepted_conn_closed_or_sent_witness :
  pipes_at_most_once Scenario.pipe_all ∧
  marker_only_from_pipe Scenario.pipe_all ∧
  (cnt 0 (closedByHandler Scenario.shutdown_end)
   + cnt 0 (tags (chan_buf (l_connChan Scenario.shutdown_end)))
   + cnt 0 (tags (delivered Scenario.shutdown_end))
   + cnt 0 (tags (drained Scenario.shutdown_end)) = 1)%nat.
Proof.
  assert (pipes_at_most_once Scenario.pipe_all) as Honce.
  { intros cx vs next Hout. discriminate Hout. }
  assert (marker_only_from_pipe Scenario.pipe_all) as Hwb.
  { intros cx e Hout. discriminate Hout. }
  assert (reachable Scenario.pipe_all Scenario.shutdown
            Scenario.shutdown_end) as Hreach.
  { apply (run_reachable _ _ Scenario.shutdown_schedule Scenario.shutdown);
      [apply reachable_init|]. vm_compute. reflexivity. }
  destruct (accepted_conn_closed_or_sent _ _ _ _ Scenario.shutdown_end 0%nat
              (default (spawn_handle (Scenario.tcp 0))
                 (handlers Scenario.shutdown_end !! 0%nat))
              Honce Hwb Hreach)
    as (Hone & _); [vm_compute; reflexivity..|].
  split; [exact Honce|]. split; [exact Hwb|exact Hone].
Defined.

(** * Further properties *)

(** ** What every execution keeps *)

(** X1: the hand-off channel keeps the capacity it was made with and never
    holds more connections than that. *)
Theorem connChan_within_capacity (route : Handler)
    (l : list (NetConn * error)) (capacity : nat) (pool : list (list Z))
    (s : State) :
  reachable route (WrapListener l capacity pool) s →
  chan_cap (l_connChan s) = capacity ∧
  (length (chan_buf (l_connChan s)) ≤ capacity)%nat.
Proof.
  induction 1 as [|s a s' _ IH Hstep].
  - split; [done|]. simpl. lia.
  - by eapply capacity_step.
Qed.

(** X3: once the channel is closed, [l.err] is the first error of the raw
    listener that was not temporary; it is not nil, so [Accept] on the
    closed and empty channel never returns a nil connection with a nil
    error. *)
Theorem Accept_after_close_returns_first_fatal (route : Handler)
    (l : list (NetConn * error)) (capacity : nat) (pool : list (list Z))
    (s : State) :
  reachable route (WrapListener l capacity pool) s →
  chan_closed (l_connChan s) = true →
  l_err s = first_fatal l ∧
  ∃ e, l_err s = Some e ∧ is_temporary (Some e) = false ∧
       (chan_buf (l_connChan s) = [] →
        Accept (l_connChan s) (l_err s)
        = Some (l_connChan s, (None, Some e))).
Proof.
  intros Hreach Hclosed.
  assert (terminal_inv l s) as Hterm.
  { clear Hclosed. induction Hreach as [|s a s' _ IH Hstep]; [done|].
    by eapply terminal_step. }
  apply reachable_Inv in Hreach as HI.
  destruct (closed_no_in_flight _ _ HI Hclosed) as (Hst & _ & _).
  pose proof (inv_err _ _ HI) as Herr.
  unfold terminal_inv in Hterm. rewrite Hst in Hterm, Herr.
  destruct Herr as (e & He & Htmp).
  split; [done|]. exists e. split; [done|]. split; [done|].
  intros Hbuf. unfold Accept, chan_recv. by rewrite Hbuf, Hclosed, He.
Qed.

(** X4: no execution panics on the bookkeeping of the listener: the
    wait-group never goes negative, the channel is never closed twice and
    never sent to after its close, and the index on line 174 is always in
    range.  This holds of the panic that ends the process and of the panic
    any goroutine of [handle] is unwinding from. *)
Theorem no_bookkeeping_panic (route : Handler)
    (l : list (NetConn * error)) (capacity : nat) (pool : list (list Z))
    (s : State) (r : PanicReason) :
  reachable route (WrapListener l capacity pool) s →
  panicked s = Some r ∨
  (∃ i h, handlers s !! i = Some h ∧ hpanic h = Some r) →
  0 <= l_wg s ∧
  r ≠ NegativeWaitGroup ∧ r ≠ CloseOfClosedChannel ∧
  r ≠ SendOnClosedChannel ∧ r ≠ IndexOutOfRange.
Proof.
  intros Hreach Hr.
  assert (panic_inv s) as [Hp Hh].
  { clear Hr. induction Hreach as [|s a s' Hreach IH Hstep].
    - split; [done|]. intros i h r0 Hi. done.
    - eapply panic_step; [|done..]. by eapply reachable_Inv. }
  apply reachable_Inv in Hreach as HI. split.
  - rewrite (inv_wg _ _ HI). destruct (loop_pc s); simpl; lia.
  - assert (assertion_or_chain r) as [-> | ->]; [|done..].
    destruct Hr as [Hr|(i & h & Hi & Hr)]; [by apply Hp|by eapply Hh].
Qed.

(** X5: when the chain calls [pipeConnection] at most once and returns what
    the call returns, then for every handler goroutine, at every point of
    every execution, its connection has met at most one of these, and at
    most once: closed by the goroutine, queued in the channel, returned by
    [Accept], closed by the drain of lines 117-119.  No connection is
    delivered twice or both delivered and closed by the listener. *)
Theorem conn_at_most_one_fate (route : Handler)
    (l : list (NetConn * error)) (capacity : nat) (pool : list (list Z))
    (s : State) (i : nat) :
  pipes_at_most_once route →
  reachable route (WrapListener l capacity pool) s →
  (cnt i (closedByHandler s) + cnt i (tags (chan_buf (l_connChan s)))
   + cnt i (tags (delivered s)) + cnt i (tags (drained s)) ≤ 1)%nat.
Proof.
  intros Honce Hreach. apply reachable_Inv in Hreach as HI.
  destruct (handlers s !! i) as [h|] eqn:Hi.
  - pose proof (inv_closes _ _ HI i h Hi) as Hcl.
    destruct (reachable_sent _ _ _ _ _ Honce Hreach i h Hi) as [_ Hse].
    pose proof (inv_local _ _ HI i h Hi) as Hloc.
    destruct (has_sent route h) eqn:Hsent.
    + assert (closes_conn (herr h) = false) as Hno.
      { unfold has_sent in Hsent. unfold local_ok, chain_returned in Hloc.
        rewrite final_outcome_once in Hloc by apply Honce.
        destruct (hpanic h); [by destruct (hpc h)|].
        destruct (chain_outcome _); try by destruct (hpc h).
        assert (herr h = Some errHijacked) as ->
          by (destruct (hpc h); try done; by destruct Hloc).
        done. }
      rewrite Hno, andb_false_r in Hcl. lia.
    + destruct (exited h && closes_conn (herr h)); lia.
  - apply lookup_ge_None in Hi.
    pose proof (lookup_ge_handlers _ _ _ HI Hi). lia.
Qed.

(** X6: handler goroutines are spawned for the connections the raw listener
    returned with a nil error before its first error that is not
    temporary, one each and in that order; when the loop has left its
    accept phase every such connection has its goroutine. *)
Theorem handlers_follow_accepted (route : Handler)
    (l : list (NetConn * error)) (capacity : nat) (pool : list (list Z))
    (s : State) :
  reachable route (WrapListener l capacity pool) s →
  map hconn (handlers s) `prefix_of` accepted l ∧
  (stopped (loop_pc s) = true → map hconn (handlers s) = accepted l).
Proof.
  intros Hreach.
  assert (script_inv l s) as Hinv.
  { induction Hreach as [|s a s' _ IH Hstep]; [|by eapply script_step].
    unfold script_inv. simpl. exists []. done. }
  unfold script_inv in Hinv. destruct (stopped (loop_pc s)).
  - split; [by rewrite Hinv|done].
  - split; [|done]. destruct Hinv as (d & <- & _). by eexists.
Qed.

(** X7: no record "handling connection" of the log ever carries a nil
    error or the hijacked marker. *)
Theorem marker_never_logged (route : Handler)
    (l : list (NetConn * error)) (capacity : nat) (pool : list (list Z))
    (s : State) (r : LogRecord) :
  reachable route (WrapListener l capacity pool) s →
  r ∈ log s →
  log_msg r = "handling connection" →
  log_err r ≠ None ∧ is_hijacked (log_err r) = false.
Proof.
  intros Hreach Hr.
  assert (Forall marker_free (log s)) as Hall.
  { clear Hr. induction Hreach as [|s a s' _ IH Hstep]; [constructor|].
    by eapply log_step. }
  rewrite Forall_forall in Hall. by apply Hall.
Qed.

(** ** How the operations compose *)

Lemma run_app route a b : ∀ s,
  run route s (a ++ b)
  = match run route s a with
    | Some s1 => run route s1 b
    | None => None
    end.
Proof.
  induction a as [|x a IH]; intros s; simpl; [done|].
  destruct (step route s x); [apply IH|done].
Qed.

Lemma drain_run route : ∀ queue s,
  panicked s = None → loop_pc s = LDrain →
  chan_buf (l_connChan s) = queue →
  run route s (replicate (length queue) ALoop)
  = Some (add_drained queue (set_connChan (emptied (l_connChan s)) s)).
Proof.
  induction queue as [|x queue IH]; intros s Hpan Hpc Hbuf; simpl.
  - f_equal. destruct s as [? [? ? ?] ? ? ? ? ? ? ? ? ? ? ? ? ?].
    simpl in *. subst. unfold add_drained, set_connChan, emptied. simpl.
    by rewrite app_nil_r.
  - unfold step, loop, chan_recv. rewrite Hpan, Hpc, Hbuf.
    rewrite IH by done. f_equal.
    unfold add_drained, set_connChan, emptied. simpl.
    by rewrite <- app_assoc.
Qed.

Lemma accept_run route : ∀ queue s,
  panicked s = None → chan_buf (l_connChan s) = queue →
  run route s (replicate (length queue) AAccept)
  = Some (add_delivered queue (set_connChan (emptied (l_connChan s)) s)).
Proof.
  induction queue as [|x queue IH]; intros s Hpan Hbuf; simpl.
  - f_equal. destruct s as [? [? ? ?] ? ? ? ? ? ? ? ? ? ? ? ? ?].
    simpl in *. subst. unfold add_delivered, set_connChan, emptied. simpl.
    by rewrite app_nil_r.
  - unfold step, consumer_Accept, Accept, chan_recv. rewrite Hpan, Hbuf.
    rewrite IH by done. f_equal.
    unfold add_delivered, set_connChan, emptied. simpl.
    by rewrite <- app_assoc.
Qed.

(** X10: as many calls of [Accept] as the channel holds connections return
    them in the order they were queued and leave the channel empty; the
    next call blocks while the channel is open and returns a nil connection
    with [l.err] once it is closed. *)
Theorem Accept_delivers_in_order (route : Handler) (s : State) :
  panicked s = None →
  ∃ s',
    run route s (replicate (length (chan_buf (l_connChan s))) AAccept)
    = Some s' ∧
    delivered s' = delivered s ++ chan_buf (l_connChan s) ∧
    chan_buf (l_connChan s') = [] ∧
    drained s' = drained s ∧ closedByHandler s' = closedByHandler s ∧
    step route s' AAccept
    = if chan_closed (l_connChan s)
      then Some (add_terminal [l_err s] s')
      else None.
Proof.
  intros Hpan. eexists. split; [by apply accept_run|].
  simpl. repeat split; try done.
  unfold step, consumer_Accept, Accept, chan_recv. simpl. rewrite Hpan.
  by destruct (chan_closed (l_connChan s)).
Qed.

(** After the accept phase, with no handler goroutine in flight, a step
    takes at most one connection from the channel and adds none. *)
Lemma quiet_step route s a s' :
  Inv route s → stopped (loop_pc s) = true → l_wg s = 0 →
  step route s a = Some s' →
  l_wg s' = 0 ∧ l_err s' = l_err s ∧
  (chan_buf (l_connChan s') = chan_buf (l_connChan s) ∧
   delivered s' = delivered s ∧ drained s' = drained s ∧
   (terminal s' = terminal s ∨ terminal s' = terminal s ++ [l_err s]) ∨
   ∃ x, chan_buf (l_connChan s) = x :: chan_buf (l_connChan s') ∧
        terminal s' = terminal s ∧
        (delivered s' = delivered s ++ [x] ∧ drained s' = drained s ∨
         delivered s' = delivered s ∧ drained s' = drained s ++ [x])).
Proof.
  intros HI Hst Hwg Hstep. unfold step in Hstep.
  destruct (panicked s); [done|]. destruct a as [| |i|].
  - unfold loop, chan_recv in Hstep.
    destruct (loop_pc s); try discriminate Hst;
      repeat case_match; simplify_eq/=;
      (split; [done|]); (split; [done|]); eauto 10.
  - unfold drainWatcher in Hstep.
    repeat case_match; simplify_eq/=;
      (split; [done|]); (split; [done|]); eauto 10.
  - unfold handle in Hstep.
    destruct (handlers s !! i) as [h|] eqn:Hi; [|done].
    destruct (hpc h) eqn:Hpc;
      try (exfalso;
           pose proof (in_flight_wg _ _ _ _ HI Hi
                         ltac:(unfold in_flight; by rewrite Hpc));
           lia).
    injection Hstep as <-. simpl. eauto 10.
  - unfold consumer_Accept, Accept, chan_recv in Hstep.
    repeat case_match; simplify_eq/=;
      (split; [done|]); (split; [done|]); eauto 10.
Qed.

Lemma quiet_run route sched : ∀ s s',
  Inv route s → stopped (loop_pc s) = true → l_wg s = 0 →
  run route s sched = Some s' →
  ∃ d r taken n,
    delivered s' = delivered s ++ d ∧ drained s' = drained s ++ r ∧
    chan_buf (l_connChan s) = taken ++ chan_buf (l_connChan s') ∧
    d ++ r ≡ₚ taken ∧ d `sublist_of` taken ∧ r `sublist_of` taken ∧
    terminal s' = terminal s ++ replicate n (l_err s).
Proof.
  induction sched as [|a sched IH]; intros s s' HI Hst Hwg Hrun;
    simpl in Hrun.
  - injection Hrun as <-. exists [], [], [], 0%nat.
    rewrite !app_nil_r. done.
  - destruct (step route s a) as [s1|] eqn:Hstep; [|done].
    destruct (quiet_step _ _ _ _ HI Hst Hwg Hstep) as (Hwg1 & Herr1 & Hcase).
    destruct (stopped_step _ _ _ _ Hstep Hst) as (Hst1 & _).
    pose proof (step_preserves _ _ _ _ HI Hstep) as HI1.
    destruct (IH _ _ HI1 Hst1 Hwg1 Hrun)
      as (d & r & taken & n & Hd & Hr & Hb & Hperm & Hsd & Hsr & Ht).
    rewrite Herr1 in Ht.
    destruct Hcase as [(Hb1 & Hd1 & Hr1 & Ht1)|(x & Hb1 & Ht1 & Hx)].
    + rewrite Hb1 in Hb. rewrite Hd1 in Hd. rewrite Hr1 in Hr.
      destruct Ht1 as [Ht1|Ht1]; rewrite Ht1 in Ht.
      * exists d, r, taken, n. done.
      * exists d, r, taken, (S n). rewrite <- app_assoc in Ht. done.
    + rewrite Ht1 in Ht. rewrite Hb1, Hb.
      destruct Hx as [[Hd1 Hr1]|[Hd1 Hr1]];
        rewrite Hd1 in Hd; rewrite Hr1 in Hr.
      * exists (x :: d), r, (x :: taken), n.
        rewrite <- app_assoc in Hd. simpl.
        repeat split; try done.
        -- by constructor.
        -- by constructor.
        -- by constructor.
      * exists d, (x :: r), (x :: taken), n.
        rewrite <- app_assoc in Hr.
        repeat split; try done.
        -- rewrite <- Permutation_middle. by constructor.
        -- by constructor.
        -- by constructor.
Qed.

(** X9: once the loop has left its [for] and the wait-group is at zero,
    however the goroutines are scheduled from then on, nothing is added to
    the channel; each connection taken from it is taken once, in queue
    order, either by a call of [Accept], which returns it to the consumer,
    or by the drain of lines 117-119, which closes it; every call of
    [Accept] that finds the channel closed and empty returns [l.err]; and
    when the loop has returned every queued connection has been taken.
    When the consumer makes no call meanwhile, the watcher closes the
    channel, the drain closes every queued connection, in order, the loop
    returns, and the next [Accept] returns a nil connection with
    [l.err]. *)
Theorem shutdown_drains_and_reports (route : Handler)
    (l : list (NetConn * error)) (capacity : nat) (pool : list (list Z))
    (s : State) :
  reachable route (WrapListener l capacity pool) s →
  stopped (loop_pc s) = true → l_wg s = 0 →
  (∀ sched s',
     run route s sched = Some s' →
     ∃ d r taken n,
       delivered s' = delivered s ++ d ∧ drained s' = drained s ++ r ∧
       chan_buf (l_connChan s) = taken ++ chan_buf (l_connChan s') ∧
       d ++ r ≡ₚ taken ∧ d `sublist_of` taken ∧ r `sublist_of` taken ∧
       terminal s' = terminal s ++ replicate n (l_err s) ∧
       (loop_pc s' = LDone → taken = chan_buf (l_connChan s))) ∧
  (panicked s = None → loop_pc s = LBreak →
   ∃ s',
     run route s
       ([ALoop; AWatcher; AWatcher]
        ++ replicate (length (chan_buf (l_connChan s))) ALoop
        ++ [ALoop; AAccept]) = Some s' ∧
     loop_pc s' = LDone ∧ watcher_pc s' = WDone ∧
     chan_closed (l_connChan s') = true ∧ chan_buf (l_connChan s') = [] ∧
     drained s' = drained s ++ chan_buf (l_connChan s) ∧
     delivered s' = delivered s ∧
     terminal s' = terminal s ++ [l_err s]).
Proof.
  intros Hreach Hst Hwg. apply reachable_Inv in Hreach as HI. split.
  - intros sched s' Hrun.
    destruct (quiet_run _ _ _ _ HI Hst Hwg Hrun)
      as (d & r & taken & n & Hd & Hr & Hb & Hperm & Hsd & Hsr & Ht).
    exists d, r, taken, n. repeat split; try done.
    intros Hdone.
    pose proof (run_reachable _ _ _ _ _ Hreach Hrun) as Hreach'.
    apply reachable_Inv in Hreach' as HI'.
    destruct (inv_done _ _ HI' Hdone) as [Hempty _].
    rewrite Hempty, app_nil_r in Hb. done.
  - intros Hpan Hpc.
    assert (chan_closed (l_connChan s) = false) as Hopen.
    { destruct (chan_closed (l_connChan s)) eqn:Hcl; [|done].
      apply (inv_closed _ _ HI) in Hcl.
      assert (watcher_pc s ≠ WNone) as Hn by (by rewrite Hcl).
      apply (inv_watcher _ _ HI) in Hn. rewrite Hpc in Hn.
      by destruct Hn. }
    rewrite run_app. simpl.
    unfold step at 1. unfold loop. rewrite Hpan, Hpc.
    unfold step at 1. unfold drainWatcher. simpl. rewrite Hpan, Hwg. simpl.
    unfold step at 1. unfold drainWatcher. simpl. rewrite Hpan, Hopen.
    rewrite run_app. rewrite drain_run; [|done..]. simpl.
    unfold step at 1. unfold loop, chan_recv. simpl. rewrite Hpan. simpl.
    unfold step at 1. unfold consumer_Accept, Accept, chan_recv. simpl.
    rewrite Hpan. simpl.
    eexists. split; [done|]. simpl. done.
Qed.

(** X2: while the channel is open and holds as many connections as its
    capacity, a goroutine inside [pipeConnection] cannot proceed; after one
    call of [Accept], which returns the oldest queued connection, the send
    goes through and the piped connection is queued last.  Nothing is
    dropped or closed meanwhile. *)
Theorem full_channel_blocks_sender (route : Handler) (s : State) (i : nat)
    (h : HandleState) (conn : Connection) (v : ChanConn) (ret : error)
    (x : Item) (rest : list Item) :
  panicked s = None → handlers s !! i = Some h → hpc h = HPipe conn →
  pipeConnection conn = PipeSend v ret →
  chan_closed (l_connChan s) = false →
  chan_buf (l_connChan s) = x :: rest →
  length (x :: rest) = chan_cap (l_connChan s) →
  step route s (AHandle i) = None ∧
  ∃ s1 s2,
    step route s AAccept = Some s1 ∧
    delivered s1 = delivered s ++ [x] ∧
    step route s1 (AHandle i) = Some s2 ∧
    chan_buf (l_connChan s2) = rest ++ [(i, v)] ∧
    closedByHandler s2 = closedByHandler s ∧ drained s2 = drained s.
Proof.
  intros Hpan Hi Hpc Hpipe Hopen Hbuf Hfull.
  split.
  - unfold step, handle, chan_send.
    rewrite Hpan, Hi, Hpc, Hpipe, Hopen, Hbuf, <- Hfull.
    by rewrite Nat.ltb_irrefl.
  - eexists. eexists. split.
    { unfold step, consumer_Accept, Accept, chan_recv.
      by rewrite Hpan, Hbuf. }
    split; [done|]. split.
    { unfold step, handle, chan_send. simpl.
      rewrite Hpan, Hi, Hpc, Hpipe, Hopen, <- Hfull. simpl.
      assert ((length rest <? S (length rest))%nat = true) as ->
        by (apply Nat.ltb_lt; lia).
      done. }
    done.
Qed.

(** ** Panics inside handle *)

Lemma pipeConnection_other_type conn v :
  GetVar conn "tls_connection_states" = Some v →
  (∀ states, v ≠ VConnectionStates states) →
  pipeConnection conn = PipePanic TypeAssertion.
Proof.
  intros Hv Hother. unfold pipeConnection. rewrite Hv.
  destruct v as [states| | |]; try done. by destruct (Hother states).
Qed.

(** X11: when the handler chain panics, the deferred calls of [handle]
    still run: the buffer goes back to the pool, the wait-group is
    decremented and the connection is closed by its goroutine; nothing is
    sent or logged, and then the panic ends the process. *)
Theorem chain_panic_runs_deferred (route : Handler) (s : State) (i : nat)
    (h : HandleState) :
  panicked s = None → handlers s !! i = Some h → hpc h = HStart →
  herr h = None →
  chain_outcome (route (WrapConnection (hconn h) [])) = Panics →
  0 < l_wg s →
  ∃ s',
    run route s (replicate 5 (AHandle i)) = Some s' ∧
    panicked s' = Some HandlerPanic ∧
    closedByHandler s' = closedByHandler s ++ [i] ∧
    l_wg s' = l_wg s - 1 ∧
    pool_out (bufPool s') = pool_out (bufPool s) ∧
    l_connChan s' = l_connChan s ∧ log s' = log s ∧
    ∀ a, step route s' a = None.
Proof.
  intros Hpan Hi Hpc Herr Hout Hwg.
  pose proof (lookup_lt_Some _ _ _ Hi) as Hlt.
  assert ((l_wg s <=? 0) = false) as Hle by (apply Z.leb_gt; lia).
  pose proof (pool_get_out (bufPool s)) as Hget.
  simpl. unfold step at 1. unfold handle at 1. rewrite Hpan, Hi, Hpc.
  destruct (pool_get (bufPool s)) as [b p]. simpl in Hget.
  unfold step at 1. unfold handle at 1. run_handle Hpan Hlt.
  unfold Reset. rewrite Hout.
  unfold step at 1. unfold handle at 1. run_handle Hpan Hlt.
  unfold step at 1. unfold handle at 1. run_handle Hpan Hlt.
  rewrite Hle.
  unfold step at 1. unfold handle at 1. run_handle Hpan Hlt.
  eexists. split; [done|]. simpl. rewrite Herr. simpl.
  repeat split; try done. lia.
Qed.

(** X12: when the chain pipes a connection whose "tls_connection_states"
    variable holds a value of another type, the type assertion panics
    inside [handle]: the connection is not sent, the deferred calls return
    the buffer, decrement the wait-group and close the connection, and
    then the panic ends the process. *)
Theorem pipe_assertion_panic_closes_conn (route : Handler) (s : State)
    (i : nat) (h : HandleState) (vs : gmap string Value) (v : Value) :
  panicked s = None → handlers s !! i = Some h → hpc h = HStart →
  herr h = None →
  chain_outcome (route (WrapConnection (hconn h) [])) = Pipes vs →
  vs !! "tls_connection_states" = Some v →
  (∀ states, v ≠ VConnectionStates states) →
  0 < l_wg s →
  ∃ s',
    run route s (replicate 6 (AHandle i)) = Some s' ∧
    panicked s' = Some TypeAssertion ∧
    closedByHandler s' = closedByHandler s ++ [i] ∧
    l_wg s' = l_wg s - 1 ∧
    pool_out (bufPool s') = pool_out (bufPool s) ∧
    l_connChan s' = l_connChan s ∧
    ∀ a, step route s' a = None.
Proof.
  intros Hpan Hi Hpc Herr Hout Hv Hother Hwg.
  pose proof (lookup_lt_Some _ _ _ Hi) as Hlt.
  assert ((l_wg s <=? 0) = false) as Hle by (apply Z.leb_gt; lia).
  pose proof (pool_get_out (bufPool s)) as Hget.
  simpl. unfold step at 1. unfold handle at 1. rewrite Hpan, Hi, Hpc.
  destruct (pool_get (bufPool s)) as [b p]. simpl in Hget.
  unfold step at 1. unfold handle at 1. run_handle Hpan Hlt.
  unfold Reset. rewrite Hout.
  unfold step at 1. unfold handle at 1. run_handle Hpan Hlt.
  match goal with
  | |- context [pipeConnection ?c] =>
      rewrite (pipeConnection_other_type c v Hv Hother)
  end.
  unfold step at 1. unfold handle at 1. run_handle Hpan Hlt.
  unfold step at 1. unfold handle at 1. run_handle Hpan Hlt.
  rewrite Hle.
  unfold step at 1. unfold handle at 1. run_handle Hpan Hlt.
  eexists. split; [done|]. simpl. rewrite Herr. simpl.
  repeat split; try done. lia.
Qed.

(** ** The outcomes of pipeConnection *)

(** X13: [pipeConnection] panics only on its type assertion, and only when
    the variable holds a value of another type: the index on line 174 is
    never out of range.  When it does not panic it returns
    [errHijacked], and what it sends is the connection it was given or a
    carrier of that very connection. *)
Theorem pipeConnection_outcomes (conn : Connection) :
  (∀ r, pipeConnection conn = PipePanic r →
        r = TypeAssertion ∧
        ∃ v, GetVar conn "tls_connection_states" = Some v ∧
             ∀ states, v ≠ VConnectionStates states) ∧
  (∀ v ret, pipeConnection conn = PipeSend v ret →
            ret = Some errHijacked ∧ underlying v = conn ∧
            (GetVar conn "tls_connection_states" = None ∨
             ∃ states, GetVar conn "tls_connection_states"
                       = Some (VConnectionStates states))).
Proof.
  split.
  - intros r Hr.
    split; [by eapply pipeConnection_panics_only_on_assertion|].
    unfold pipeConnection in Hr.
    destruct (GetVar conn "tls_connection_states") as [v|] eqn:Hv;
      [|done].
    exists v. split; [done|]. intros states ->.
    destruct (0 <? length states)%nat eqn:Hlen; [|done].
    destruct (states !! _) eqn:Hlast; [done|].
    apply Nat.ltb_lt in Hlen. apply lookup_ge_None in Hlast. lia.
  - intros v ret Hsend.
    split; [by eapply pipeConnection_returns|].
    unfold pipeConnection in Hsend.
    destruct (GetVar conn "tls_connection_states") as [[states| | |]|];
      try done.
    + split; [|eauto].
      destruct (0 <? length states)%nat; [|by injection Hsend as <- _].
      destruct (states !! _); [|done]. by injection Hsend as <- _.
    + split; [|by left]. simpl in Hsend. by injection Hsend as <- _.
Qed.

Lemma pipeConnection_outcomes_witness :
  underlying
    (TLSConn {| tls_Conn := with_vars Scenario.two_states
                              (WrapConnection (Scenario.tcp 5) []);
                connState := Some Scenario.tls13 |})
  = with_vars Scenario.two_states (WrapConnection (Scenario.tcp 5) []).
Proof.
  destruct (pipeConnection_outcomes
              (with_vars Scenario.two_states
                 (WrapConnection (Scenario.tcp 5) []))) as [_ Hout].
  destruct (Hout
              (TLSConn {| tls_Conn := with_vars Scenario.two_states
                                        (WrapConnection (Scenario.tcp 5) []);
                          connState := Some Scenario.tls13 |})
              (Some errHijacked)) as (_ & Hunder & _).
  - vm_compute. reflexivity.
  - exact Hunder.
Defined.

(** X14: when the last pointer of the sequence of TLS connection states is
    nil, [pipeConnection] still sends a carrier and returns the marker, and
    [ConnectionState] on that carrier panics on the nil pointer. *)
Theorem nil_last_state_panics_later (conn : Connection)
    (states : list StatePtr) :
  GetVar conn "tls_connection_states" = Some (VConnectionStates states) →
  last states = Some None →
  ∃ tc, pipeConnection conn = PipeSend (TLSConn tc) (Some errHijacked) ∧
        tls_Conn tc = conn ∧
        ConnectionState tc = inr NilDereference.
Proof.
  intros Hv Hlast.
  pose proof (pipeConnection_states conn states (or_introl Hv)) as Hpipe.
  rewrite Hlast in Hpipe. eexists. split; [exact Hpipe|]. done.
Qed.

Lemma nil_last_state_panics_later_witness :
  ∃ tc,
    pipeConnection (with_vars Cases.nil_last
                      (WrapConnection (Scenario.tcp 7) []))
    = PipeSend (TLSConn tc) (Some errHijacked) ∧
    ConnectionState tc = inr NilDereference.
Proof.
  destruct (nil_last_state_panics_later
              (with_vars Cases.nil_last (WrapConnection (Scenario.tcp 7) []))
              [Some Scenario.tls12; None])
    as (tc & Hsend & _ & Hstate).
  - vm_compute. reflexivity.
  - reflexivity.
  - exists tc. split; [exact Hsend|exact Hstate].
Defined.

(** ** Witnesses of the properties of executions *)

Lemma three_conns_reachable :
  reachable Scenario.route Scenario.three_conns Scenario.three_conns_end.
Proof.
  apply (run_reachable _ _ Scenario.three_conns_schedule
           Scenario.three_conns); [apply reachable_init|].
  vm_compute. reflexivity.
Qed.

Lemma shutdown_reachable :
  reachable Scenario.pipe_all Scenario.shutdown Scenario.shutdown_end.
Proof.
  apply (run_reachable _ _ Scenario.shutdown_schedule Scenario.shutdown);
    [apply reachable_init|].
  vm_compute. reflexivity.
Qed.

Lemma connChan_within_capacity_witness :
  chan_cap (l_connChan Scenario.three_conns_end) = 4%nat ∧
  (length (chan_buf (l_connChan Scenario.three_conns_end)) ≤ 4)%nat.
Proof.
  exact (connChan_within_capacity _ _ _ _ _ three_conns_reachable).
Defined.

Lemma Accept_after_close_returns_first_fatal_witness :
  l_err Scenario.shutdown_end
  = first_fatal [(Scenario.tcp 1, None);
                 (Scenario.tcp 0, Some Scenario.ErrClosed)].
Proof.
  destruct (Accept_after_close_returns_first_fatal _ _ _ _ _
              shutdown_reachable) as [Herr _].
  - vm_compute. reflexivity.
  - exact Herr.
Defined.

Lemma no_bookkeeping_panic_witness :
  panicked Cases.keepalive_crash = Some TypeAssertion ∧
  0 <= l_wg Cases.keepalive_crash ∧
  TypeAssertion ≠ IndexOutOfRange.
Proof.
  split; [vm_compute; reflexivity|].
  destruct (no_bookkeeping_panic Scenario.route
              [(Scenario.embedded_tcp, None)] 1 [] Cases.keepalive_crash
              TypeAssertion) as (Hwg & _ & _ & _ & Hr).
  - apply (run_reachable _ _ [ALoop]
             (Scenario.about_to_accept Scenario.embedded_tcp None));
      [apply reachable_init|]. vm_compute. reflexivity.
  - left. vm_compute. reflexivity.
  - split; [exact Hwg|exact Hr].
Defined.

Lemma conn_at_most_one_fate_witness :
  pipes_at_most_once Scenario.route ∧
  (cnt 1 (closedByHandler Scenario.three_conns_end)
   + cnt 1 (tags (chan_buf (l_connChan Scenario.three_conns_end)))
   + cnt 1 (tags (delivered Scenario.three_conns_end))
   + cnt 1 (tags (drained Scenario.three_conns_end)) ≤ 1)%nat.
Proof.
  assert (pipes_at_most_once Scenario.route) as Honce.
  { intros cx vs next. unfold Scenario.route.
    destruct (conn_id (Conn cx)) as [|[|[|[|[|n]]]]]; discriminate. }
  split; [exact Honce|].
  exact (conn_at_most_one_fate _ _ _ _ _ 1%nat Honce three_conns_reachable).
Defined.

Lemma handlers_follow_accepted_witness :
  map hconn (handlers Scenario.shutdown_end) = [Scenario.tcp 1].
Proof.
  destruct (handlers_follow_accepted _ _ _ _ _ shutdown_reachable)
    as [_ Hall].
  apply Hall. vm_compute. reflexivity.
Defined.

Lemma marker_never_logged_witness :
  is_hijacked (Some Scenario.lookalike) = false.
Proof.
  apply (marker_never_logged _ _ _ _ _
           (log_error ErrorLevel "handling connection"
              (Some Scenario.lookalike)) three_conns_reachable).
  - apply list_elem_of_lookup. exists 2%nat. vm_compute. reflexivity.
  - reflexivity.
Defined.

Lemma Accept_delivers_in_order_witness :
  ∃ s',
    run Scenario.pipe_all Cases.queued [AAccept] = Some s' ∧
    tags (delivered s') = [0%nat] ∧
    step Scenario.pipe_all s' AAccept = None.
Proof.
  destruct (Accept_delivers_in_order Scenario.pipe_all Cases.queued)
    as (s' & Hrun & Hdel & _ & _ & _ & Hnext); [vm_compute; reflexivity|].
  exists s'. split; [exact Hrun|]. split.
  - rewrite Hdel. vm_compute. reflexivity.
  - exact Hnext.
Defined.

Lemma at_break_reachable :
  reachable Scenario.pipe_all Scenario.shutdown Cases.at_break.
Proof.
  apply (run_reachable _ _
           (Scenario.accept_and_spawn ++ Scenario.piping_handle 0 ++ [ALoop])
           Scenario.shutdown); [apply reachable_init|].
  vm_compute. reflexivity.
Qed.

Lemma shutdown_drains_and_reports_witness :
  tags (delivered Cases.accept_first_end) = [0%nat] ∧
  ∃ d r taken n,
    delivered Cases.accept_first_end = delivered Cases.at_break ++ d ∧
    drained Cases.accept_first_end = drained Cases.at_break ++ r ∧
    chan_buf (l_connChan Cases.at_break)
    = taken ++ chan_buf (l_connChan Cases.accept_first_end) ∧
    d ++ r ≡ₚ taken ∧ d `sublist_of` taken ∧ r `sublist_of` taken ∧
    terminal Cases.accept_first_end
    = terminal Cases.at_break ++ replicate n (l_err Cases.at_break) ∧
    (loop_pc Cases.accept_first_end = LDone →
     taken = chan_buf (l_connChan Cases.at_break)).
Proof.
  split; [vm_compute; reflexivity|].
  destruct (shutdown_drains_and_reports _ _ _ _ _ at_break_reachable)
    as [Hall _]; [vm_compute; reflexivity..|].
  apply (Hall Cases.accept_first). vm_compute. reflexivity.
Defined.

Lemma full_channel_blocks_sender_witness :
  step Scenario.pipe_all Cases.full (AHandle 1) = None ∧
  ∃ s1 s2,
    step Scenario.pipe_all Cases.full AAccept = Some s1 ∧
    step Scenario.pipe_all s1 (AHandle 1) = Some s2 ∧
    tags (chan_buf (l_connChan s2)) = [1%nat].
Proof.
  destruct (full_channel_blocks_sender Scenario.pipe_all Cases.full 1
              (default (spawn_handle (Scenario.tcp 0))
                 (handlers Cases.full !! 1%nat))
              (with_vars ∅
                 (after_chain (WrapConnection (Scenario.tcp 2) [])
                    (Scenario.chain (Pipes ∅))))
              (PlainConn
                 (with_vars ∅
                    (after_chain (WrapConnection (Scenario.tcp 2) [])
                       (Scenario.chain (Pipes ∅)))))
              (Some errHijacked)
              (default (0%nat, PlainConn (WrapConnection (Scenario.tcp 0) []))
                 (head (chan_buf (l_connChan Cases.full))))
              [])
    as (Hblock & s1 & s2 & Hacc & _ & Hsend & Hbuf & _);
    [vm_compute; reflexivity..|].
  split; [exact Hblock|]. exists s1, s2.
  split; [exact Hacc|]. split; [exact Hsend|]. by rewrite Hbuf.
Defined.

Lemma chain_panic_runs_deferred_witness :
  ∃ s',
    run Cases.panic_route Cases.spawned (replicate 5 (AHandle 0)) = Some s' ∧
    panicked s' = Some HandlerPanic ∧
    closedByHandler s' = closedByHandler Cases.spawned ++ [0%nat].
Proof.
  destruct (chain_panic_runs_deferred Cases.panic_route Cases.spawned 0
              (spawn_handle (Scenario.tcp 1)))
    as (s' & Hrun & Hpan & Hclosed & _); [vm_compute; reflexivity..|].
  exists s'. split; [exact Hrun|]. split; [exact Hpan|exact Hclosed].
Defined.

Lemma pipe_assertion_panic_closes_conn_witness :
  ∃ s',
    run Cases.wrong_type_route Cases.spawned (replicate 6 (AHandle 0))
    = Some s' ∧
    panicked s' = Some TypeAssertion ∧
    l_connChan s' = l_connChan Cases.spawned.
Proof.
  destruct (pipe_assertion_panic_closes_conn Cases.wrong_type_route
              Cases.spawned 0 (spawn_handle (Scenario.tcp 1))
              Scenario.wrong_type (VString "tls1.3"))
    as (s' & Hrun & Hpan & _ & _ & _ & Hchan & _);
    [vm_compute; reflexivity..| |vm_compute; reflexivity|].
  - intros states. discriminate.
  - exists s'. split; [exact Hrun|]. split; [exact Hpan|exact Hchan].
Defined.

(** ** A whole run of handle, and of the retries of the loop *)

(** X15: a handler goroutine whose chain pipes its connection, run from its
    start while the channel is open and has room, queues the value
    [pipeConnection] computes, last in the channel, and exits with the
    marker in [err]: it does not close the connection, logs the stats
    record and no error, returns its buffer and decrements the
    wait-group. *)
Theorem piping_handle_hands_off (route : Handler) (s : State) (i : nat)
    (h : HandleState) (vs : gmap string Value) (v : ChanConn) (ret : error) :
  panicked s = None → handlers s !! i = Some h → hpc h = HStart →
  chain_outcome (route (WrapConnection (hconn h) [])) = Pipes vs →
  pipeConnection
    (with_vars vs
       (after_chain (WrapConnection (hconn h) [])
          (route (WrapConnection (hconn h) []))))
  = PipeSend v ret →
  chan_closed (l_connChan s) = false →
  (length (chan_buf (l_connChan s)) < chan_cap (l_connChan s))%nat →
  0 < l_wg s →
  ∃ s',
    run route s (replicate 7 (AHandle i)) = Some s' ∧
    chan_buf (l_connChan s') = chan_buf (l_connChan s) ++ [(i, v)] ∧
    closedByHandler s' = closedByHandler s ∧
    (herr <$> handlers s' !! i) = Some (Some errHijacked) ∧
    (hpc <$> handlers s' !! i) = Some HExit ∧
    count_stats (log s') = S (count_stats (log s)) ∧
    length (log s') = S (length (log s)) ∧
    l_wg s' = l_wg s - 1 ∧
    pool_out (bufPool s') = pool_out (bufPool s) ∧
    panicked s' = hpanic h.
Proof.
  intros Hpan Hi Hpc Hout Hpipe Hopen Hroom Hwg.
  pose proof (lookup_lt_Some _ _ _ Hi) as Hlt.
  pose proof (pipeConnection_returns _ _ _ Hpipe) as ->.
  assert ((l_wg s <=? 0) = false) as Hle by (apply Z.leb_gt; lia).
  apply Nat.ltb_lt in Hroom.
  pose proof (pool_get_out (bufPool s)) as Hget.
  simpl. unfold step at 1. unfold handle at 1. rewrite Hpan, Hi, Hpc.
  destruct (pool_get (bufPool s)) as [b p]. simpl in Hget.
  unfold step at 1. unfold handle at 1. run_handle Hpan Hlt.
  unfold Reset. rewrite Hout.
  unfold step at 1. unfold handle at 1. run_handle Hpan Hlt.
  rewrite Hpipe. unfold chan_send. run_handle Hpan Hlt.
  rewrite Hopen, Hroom.
  unfold step at 1. unfold handle at 1. run_handle Hpan Hlt.
  unfold step at 1. unfold handle at 1. run_handle Hpan Hlt.
  unfold step at 1. unfold handle at 1. run_handle Hpan Hlt.
  rewrite Hle.
  unfold step at 1. unfold handle at 1. run_handle Hpan Hlt.
  eexists. split; [done|]. simpl.
  rewrite list_lookup_insert_eq by (rewrite ?length_insert; exact Hlt).
  rewrite count_stats_app, length_app, app_nil_r. simpl.
  repeat split; try done; lia.
Qed.

Lemma piping_handle_hands_off_witness :
  ∃ s',
    run Scenario.pipe_all Cases.spawned (replicate 7 (AHandle 0)) = Some s' ∧
    tags (chan_buf (l_connChan s')) = [0%nat] ∧
    closedByHandler s' = [].
Proof.
  destruct (piping_handle_hands_off Scenario.pipe_all Cases.spawned 0
              (spawn_handle (Scenario.tcp 1)) ∅
              (PlainConn
                 (with_vars ∅
                    (after_chain (WrapConnection (Scenario.tcp 1) [])
                       (Scenario.chain (Pipes ∅)))))
              (Some errHijacked))
    as (s' & Hrun & Hbuf & Hclosed & _); [vm_compute; reflexivity..|].
  exists s'. split; [exact Hrun|]. split.
  - rewrite Hbuf. vm_compute. reflexivity.
  - rewrite Hclosed. vm_compute. reflexivity.
Defined.

Lemma retry_run route : ∀ pre rest s,
  panicked s = None → loop_pc s = LAccept →
  Forall (λ p, is_temporary p.2 = true) pre →
  raw s = pre ++ rest →
  run route s (replicate (length pre) ALoop)
  = Some (add_log (map temporary_record pre) (set_raw rest s)).
Proof.
  induction pre as [|[conn err] pre IH]; intros rest s Hpan Hpc Hall Hraw;
    simpl.
  - f_equal. destruct s. simpl in *. subst.
    unfold add_log, set_raw. simpl. by rewrite app_nil_r.
  - apply Forall_cons in Hall as [Htmp Hall]. simpl in Htmp.
    unfold step, loop. rewrite Hpan, Hpc, Hraw. simpl. rewrite Htmp.
    rewrite (IH rest) by done. f_equal.
    unfold add_log, set_raw, temporary_record. simpl.
    by rewrite <- app_assoc.
Qed.

(** X16: however many temporary errors the raw listener returns in a row,
    the loop logs each at error level, in order, and is back at its accept
    call: it does not stop, does not store the error, spawns nothing, and
    drops whatever connection came with such an error. *)
Theorem temporary_errors_are_all_retried (route : Handler) (s : State)
    (pre rest : list (NetConn * error)) :
  panicked s = None → loop_pc s = LAccept →
  Forall (λ p, is_temporary p.2 = true) pre →
  raw s = pre ++ rest →
  ∃ s',
    run route s (replicate (length pre) ALoop) = Some s' ∧
    raw s' = rest ∧ loop_pc s' = LAccept ∧ l_err s' = l_err s ∧
    log s' = log s ++ map temporary_record pre ∧
    handlers s' = handlers s ∧ l_wg s' = l_wg s ∧ panicked s' = None.
Proof.
  intros Hpan Hpc Hall Hraw. eexists.
  split; [by apply retry_run|]. simpl. done.
Qed.

Lemma temporary_errors_are_all_retried_witness :
  ∃ s',
    run Scenario.route
      (WrapListener [(Scenario.tcp 0, Some Scenario.ErrTimeout);
                     (Scenario.tcp 0, Some Scenario.ErrTimeout);
                     (Scenario.tcp 1, None)] 1 [])
      [ALoop; ALoop] = Some s' ∧
    raw s' = [(Scenario.tcp 1, None)] ∧ loop_pc s' = LAccept ∧
    handlers s' = [].
Proof.
  destruct (temporary_errors_are_all_retried Scenario.route
              (WrapListener [(Scenario.tcp 0, Some Scenario.ErrTimeout);
                             (Scenario.tcp 0, Some Scenario.ErrTimeout);
                             (Scenario.tcp 1, None)] 1 [])
              [(Scenario.tcp 0, Some Scenario.ErrTimeout);
               (Scenario.tcp 0, Some Scenario.ErrTimeout)]
              [(Scenario.tcp 1, None)])
    as (s' & Hrun & Hraw & Hpc & _ & _ & Hh & _).
  - reflexivity.
  - reflexivity.
  - repeat constructor.
  - reflexivity.
  - exists s'. split; [exact Hrun|]. split; [exact Hraw|].
    split; [exact Hpc|exact Hh].
Defined.

(** ** Chains that do not return what pipeConnection returns *)

Lemma pipeConnection_underlying conn v ret :
  pipeConnection conn = PipeSend v ret → underlying v = conn.
Proof.
  unfold pipeConnection.
  destruct (GetVar conn "tls_connection_states") as [[states| | |]|];
    try done.
  - destruct (0 <? length states)%nat; [|by intros [= <- _]].
    destruct (states !! _); [|done]. by intros [= <- _].
  - simpl. by intros [= <- _].
Qed.

(** X17: a chain that calls [pipeConnection], drops the marker and returns
    nil or an error of its own gets its connection queued for the consumer
    and closed by the handler goroutine: [handle] looks only at the error
    the chain returns. *)
Theorem pipe_then_return_closes_queued_conn (route : Handler) (s : State)
    (i : nat) (h : HandleState) (vs : gmap string Value) (e : error)
    (v : ChanConn) (ret : error) :
  panicked s = None → handlers s !! i = Some h → hpc h = HStart →
  hpanic h = None →
  chain_outcome (route (WrapConnection (hconn h) []))
  = PipesThen vs (Returns e) →
  is_hijacked e = false →
  pipeConnection
    (with_vars vs
       (after_chain (WrapConnection (hconn h) [])
          (route (WrapConnection (hconn h) []))))
  = PipeSend v ret →
  chan_closed (l_connChan s) = false →
  (length (chan_buf (l_connChan s)) < chan_cap (l_connChan s))%nat →
  0 < l_wg s →
  ∃ s',
    run route s (replicate 7 (AHandle i)) = Some s' ∧
    chan_buf (l_connChan s') = chan_buf (l_connChan s) ++ [(i, v)] ∧
    closedByHandler s' = closedByHandler s ++ [i] ∧
    (herr <$> handlers s' !! i) = Some e ∧
    (hpc <$> handlers s' !! i) = Some HExit ∧
    panicked s' = None.
Proof.
  intros Hpan Hi Hpc Hnone Hout He Hpipe Hopen Hroom Hwg.
  pose proof (lookup_lt_Some _ _ _ Hi) as Hlt.
  assert ((l_wg s <=? 0) = false) as Hle by (apply Z.leb_gt; lia).
  apply Nat.ltb_lt in Hroom.
  simpl. unfold step at 1. unfold handle at 1. rewrite Hpan, Hi, Hpc.
  destruct (pool_get (bufPool s)) as [b p].
  unfold step at 1. unfold handle at 1. run_handle Hpan Hlt.
  rewrite Hout.
  unfold step at 1. unfold handle at 1. run_handle Hpan Hlt.
  rewrite Hpipe. unfold chan_send. run_handle Hpan Hlt.
  rewrite Hopen, Hroom.
  unfold step at 1. unfold handle at 1. run_handle Hpan Hlt.
  unfold step at 1. unfold handle at 1. run_handle Hpan Hlt.
  unfold step at 1. unfold handle at 1. run_handle Hpan Hlt.
  rewrite Hle.
  unfold step at 1. unfold handle at 1. run_handle Hpan Hlt.
  unfold closes_conn. rewrite He, Hnone.
  eexists. split; [done|]. simpl.
  rewrite list_lookup_insert_eq by (rewrite ?length_insert; exact Hlt).
  done.
Qed.

Lemma pipe_then_return_closes_queued_conn_witness :
  ∃ s',
    run Cases.pipe_then_nil Cases.spawned (replicate 7 (AHandle 0)) = Some s' ∧
    tags (chan_buf (l_connChan s')) = [0%nat] ∧
    closedByHandler s' = [0%nat].
Proof.
  destruct (pipe_then_return_closes_queued_conn Cases.pipe_then_nil
              Cases.spawned 0 (spawn_handle (Scenario.tcp 1)) ∅ None
              (PlainConn
                 (with_vars ∅
                    (after_chain (WrapConnection (Scenario.tcp 1) [])
                       (Scenario.chain (PipesThen ∅ (Returns None))))))
              (Some errHijacked))
    as (s' & Hrun & Hbuf & Hclosed & _); [vm_compute; reflexivity..|].
  exists s'. split; [exact Hrun|]. split.
  - rewrite Hbuf. vm_compute. reflexivity.
  - rewrite Hclosed. vm_compute. reflexivity.
Defined.

(** X18: a chain that calls [pipeConnection] twice gets its connection
    queued twice, so that two calls of [Accept] return the same
    connection; the handler goroutine does not close it. *)
Theorem piping_twice_queues_twice (route : Handler) (s : State)
    (i : nat) (h : HandleState) (vs vs' : gmap string Value)
    (v v' : ChanConn) (ret ret' : error) :
  panicked s = None → handlers s !! i = Some h → hpc h = HStart →
  hpanic h = None →
  chain_outcome (route (WrapConnection (hconn h) []))
  = PipesThen vs (Pipes vs') →
  pipeConnection
    (with_vars vs
       (after_chain (WrapConnection (hconn h) [])
          (route (WrapConnection (hconn h) []))))
  = PipeSend v ret →
  pipeConnection
    (with_vars vs'
       (with_vars vs
          (after_chain (WrapConnection (hconn h) [])
             (route (WrapConnection (hconn h) [])))))
  = PipeSend v' ret' →
  chan_closed (l_connChan s) = false →
  (S (length (chan_buf (l_connChan s))) < chan_cap (l_connChan s))%nat →
  0 < l_wg s →
  ∃ s',
    run route s (replicate 8 (AHandle i)) = Some s' ∧
    chan_buf (l_connChan s')
    = chan_buf (l_connChan s) ++ [(i, v); (i, v')] ∧
    Conn (underlying v) = hconn h ∧ Conn (underlying v') = hconn h ∧
    closedByHandler s' = closedByHandler s ∧
    (hpc <$> handlers s' !! i) = Some HExit ∧
    panicked s' = None.
Proof.
  intros Hpan Hi Hpc Hnone Hout Hpipe Hpipe' Hopen Hroom Hwg.
  pose proof (lookup_lt_Some _ _ _ Hi) as Hlt.
  pose proof (pipeConnection_returns _ _ _ Hpipe') as ->.
  assert ((l_wg s <=? 0) = false) as Hle by (apply Z.leb_gt; lia).
  assert ((length (chan_buf (l_connChan s)) <? chan_cap (l_connChan s))%nat
          = true) as Hroom1 by (apply Nat.ltb_lt; lia).
  assert ((length (chan_buf (l_connChan s) ++ [(i, v)])
           <? chan_cap (l_connChan s))%nat = true) as Hroom2.
  { apply Nat.ltb_lt. rewrite length_app. simpl. lia. }
  simpl. unfold step at 1. unfold handle at 1. rewrite Hpan, Hi, Hpc.
  destruct (pool_get (bufPool s)) as [b p].
  unfold step at 1. unfold handle at 1. run_handle Hpan Hlt.
  rewrite Hout.
  unfold step at 1. unfold handle at 1. run_handle Hpan Hlt.
  rewrite Hpipe. unfold chan_send. run_handle Hpan Hlt.
  rewrite Hopen, Hroom1.
  unfold step at 1. unfold handle at 1. run_handle Hpan Hlt.
  rewrite Hpipe'. unfold chan_send. run_handle Hpan Hlt. rewrite Hroom2.
  unfold step at 1. unfold handle at 1. run_handle Hpan Hlt.
  unfold step at 1. unfold handle at 1. run_handle Hpan Hlt.
  unfold step at 1. unfold handle at 1. run_handle Hpan Hlt.
  rewrite Hle.
  unfold step at 1. unfold handle at 1. run_handle Hpan Hlt.
  rewrite Hnone.
  eexists. split; [done|]. simpl.
  rewrite list_lookup_insert_eq by (rewrite ?length_insert; exact Hlt).
  rewrite <- app_assoc. simpl. repeat split; try done.
  - by rewrite (pipeConnection_underlying _ _ _ Hpipe).
  - by rewrite (pipeConnection_underlying _ _ _ Hpipe').
  - by rewrite app_nil_r.
Qed.

Lemma piping_twice_queues_twice_witness :
  ∃ s',
    run Cases.pipe_twice Cases.dirty_pool (replicate 8 (AHandle 0)) = Some s' ∧
    tags (chan_buf (l_connChan s')) = [0%nat; 0%nat] ∧
    closedByHandler s' = [].
Proof.
  destruct (piping_twice_queues_twice Cases.pipe_twice Cases.dirty_pool 0
              (spawn_handle (Scenario.tcp 1)) ∅ ∅
              (PlainConn
                 (with_vars ∅
                    (after_chain (WrapConnection (Scenario.tcp 1) [])
                       (Scenario.chain (PipesThen ∅ (Pipes ∅))))))
              (PlainConn
                 (with_vars ∅
                    (after_chain (WrapConnection (Scenario.tcp 1) [])
                       (Scenario.chain (PipesThen ∅ (Pipes ∅))))))
              (Some errHijacked) (Some errHijacked))
    as (s' & Hrun & Hbuf & _ & _ & Hclosed & _);
    [first [vm_compute; reflexivity | vm_compute; lia]..|].
  exists s'. split; [exact Hrun|]. split.
  - rewrite Hbuf. vm_compute. reflexivity.
  - rewrite Hclosed. vm_compute. reflexivity.
Defined.
